(** * mayaPlugins: the Gerstner wave deformer and the tweenMachine command

    A shallow embedding of the two plug-ins

      - [gerstnerWaves_DeformerPlugin/gerstnerWaveDeformer.py]
      - [tweenMachine_CommandPlugin/tweenMachine.py]
      - [tweenMachine_CommandPlugin/tweenMachineUI.py]

    Python floats are idealised as real numbers: [+], [-], [*] are the
    operations of [R], [/] raises [ZeroDivisionError] on a zero divisor,
    [math.sqrt] raises [ValueError] on a negative argument.  Rounding,
    infinities and NaN are outside the model.  Exceptions are kept as
    values of an error monad; the Maya objects the code mutates in place
    (the point handed out by the geometry iterator, the animation curves,
    the command object itself) are threaded explicitly. *)

From Stdlib Require Import Reals Lra Lia List Bool String ZArith Sorted.
From Stdlib Require Import DecimalString.
Import ListNotations.

Open Scope R_scope.

(** ** Python exceptions *)

Module Py.

Inductive exception : Type :=
| ZeroDivisionError   (* float division by zero *)
| ValueError          (* math domain error *)
| RuntimeError        (* a failed MStatus of the host API *)
| OverflowError       (* a negative int for an unsigned argument *)
| TypeError.          (* an operand that is None *)

Inductive exn (A : Type) : Type :=
| Return (a : A)
| Raise (e : exception).

Arguments Return {A} a.
Arguments Raise {A} e.

Definition bind {A B : Type} (m : exn A) (k : A -> exn B) : exn B :=
  match m with
  | Return a => k a
  | Raise e => Raise e
  end.


(** [a / b] on floats. *)
Definition truediv (a b : R) : exn R :=
  if Req_EM_T b 0 then Raise ZeroDivisionError else Return (a / b).

(** [math.sqrt]. *)
Definition math_sqrt (x : R) : exn R :=
  if Rlt_dec x 0 then Raise ValueError else Return (sqrt x).

(** The comparisons [<], [>], [<=], [>=] on floats. *)
Definition flt (a b : R) : bool := if Rlt_dec a b then true else false.
Definition fgt (a b : R) : bool := if Rgt_dec a b then true else false.
Definition fle (a b : R) : bool := if Rle_dec a b then true else false.
Definition fge (a b : R) : bool := if Rge_dec a b then true else false.

(** Code that mutates an object of type [S] and may raise: the object
    as it is when the code returns or when the exception leaves it. *)
Definition ST (S A : Type) : Type := S -> exn A * S.

Definition ret {S A : Type} (a : A) : ST S A := fun s => (Return a, s).

Definition seq {S A B : Type} (m : ST S A) (k : A -> ST S B) : ST S B :=
  fun s =>
    match m s with
    | (Return a, s') => k a s'
    | (Raise e, s') => (Raise e, s')
    end.

Definition get {S : Type} : ST S S := fun s => (Return s, s).
Definition put {S : Type} (s' : S) : ST S unit := fun _ => (Return tt, s').
Definition lift {S A : Type} (m : exn A) : ST S A := fun s => (m, s).

End Py.

Import Py.

Declare Scope py_scope.
Delimit Scope py_scope with py.
Notation "x <- m ;; k" := (bind m (fun x => k))
  (at level 61, m at next level, right associativity) : py_scope.
Notation "x <~ m ;; k" := (seq m (fun x => k))
  (at level 61, m at next level, right associativity) : py_scope.
Notation "m ;;; k" := (seq m (fun _ => k))
  (at level 61, right associativity) : py_scope.
Open Scope py_scope.

(** ** The deformer node *)

Module Gerstner.

(** [om.MPoint]: a mutable triple of coordinates. *)
Record MPoint : Type := mkMPoint { px : R; py : R; pz : R }.

(** [om.MFloatVector]. *)
Record MFloatVector : Type := mkMFloatVector { vx : R; vy : R; vz : R }.

Definition vector_length (v : MFloatVector) : R :=
  sqrt (vx v * vx v + vy v * vy v + vz v * vz v).

(** [MFloatVector.normal()] of the host: the vector scaled to unit length.
    The host does not divide by a zero length; the zero vector is
    returned as it is. *)
Definition normal (v : MFloatVector) : MFloatVector :=
  if Req_EM_T (vector_length v) 0 then v
  else mkMFloatVector (vx v / vector_length v) (vy v / vector_length v)
                      (vz v / vector_length v).

(** The value of [asFloat3()]: direction X, direction Y, steepness. *)
Definition float3 : Type := (R * R * R)%type.

Definition idx0 (w : float3) : R := fst (fst w).
Definition idx1 (w : float3) : R := snd (fst w).
Definition idx2 (w : float3) : R := snd w.

(** [Ripple.gerstnerWave]; [MFloatVector(x, y)] has a zero third
    component. *)
Definition gerstnerWave (wave : float3) (wavelength : R)
           (position : MPoint) (movementVal : R) : exn MPoint :=
  let steepness := idx2 wave in
  k <- truediv (2 * PI) wavelength ;;
  q <- truediv 9.8 k ;;
  c <- math_sqrt q ;;
  let floatVectorDirection := mkMFloatVector (idx0 wave) (idx1 wave) 0 in
  let d := normal floatVectorDirection in
  let dotDirectionPositon := (vx d * px position) + (vy d * pz position) in
  let f := k * (dotDirectionPositon - c * movementVal) in
  a <- truediv steepness k ;;
  Return (mkMPoint (vx d * (a * cos f)) (a * sin f) (vy d * (a * cos f))).

(** [Ripple.addToPosition] assigns the three coordinates of the point
    object it is given; the object after the call is returned. *)
Definition addToPosition (pointPosition pointToAdd : MPoint)
           (evaluateVal : R) : MPoint :=
  let x' := px pointPosition + px pointToAdd * evaluateVal in
  let y' := py pointPosition + py pointToAdd * evaluateVal in
  let z' := pz pointPosition + pz pointToAdd * evaluateVal in
  mkMPoint x' y' z'.

(** The inputs [deform] reads from the data block. *)
Record DataBlock : Type := mkDataBlock {
  envelopeVal : R;
  movementVal : R;
  waveA_DirStpVal : float3;
  waveA_WavelengthVal : R;
  waveB_DirStpVal : float3;
  waveB_WavelengthVal : R;
  waveC_DirStpVal : float3;
  waveC_WavelengthVal : R
}.

(** One line of the loop body,
    [self.addToPosition(pointPosition, self.gerstnerWave(..., pointPosition, ...), envelopeVal)]:
    the argument [gerstnerWave(...)] is evaluated on the point object as
    it is now, then the object is updated. *)
Definition addWave (wave : float3) (wavelength movement envelope : R)
  : ST MPoint unit :=
  pointPosition <~ get ;;
  pointToAdd <~ lift (gerstnerWave wave wavelength pointPosition movement) ;;
  put (addToPosition pointPosition pointToAdd envelope).

(** The body of the [while] loop of [deform] on the point object
    [geoIterator.position()] returned. *)
Definition deformPoint (db : DataBlock) : ST MPoint unit :=
  addWave (waveA_DirStpVal db) (waveA_WavelengthVal db)
          (movementVal db) (envelopeVal db) ;;;
  addWave (waveB_DirStpVal db) (waveB_WavelengthVal db)
          (movementVal db) (envelopeVal db) ;;;
  addWave (waveC_DirStpVal db) (waveC_WavelengthVal db)
          (movementVal db) (envelopeVal db).

(** How the [while] loop ends: it runs to the end of the iterator with
    the array it built, or an exception leaves it, with the array built
    so far and the point object of the iteration that raised. *)
Inductive loop_end : Type :=
| Done (mPointArray_meshVert : list MPoint)
| Aborted (e : exception) (mPointArray_meshVert : list MPoint)
          (pointPosition : MPoint).

Fixpoint deform_loop (db : DataBlock) (geoIterator : list MPoint)
         (mPointArray_meshVert : list MPoint) : loop_end :=
  match geoIterator with
  | [] => Done mPointArray_meshVert
  | position :: rest =>
      match deformPoint db position with
      | (Return _, pointPosition) =>
          deform_loop db rest (mPointArray_meshVert ++ [pointPosition])
      | (Raise e, pointPosition) =>
          Aborted e mPointArray_meshVert pointPosition
      end
  end.

(** [Ripple.deform] on the positions of the geometry: the outcome and the
    positions of the geometry afterwards.  [setAllPositions] is the only
    write to the geometry, the iterator hands out copies. *)
Definition deform (db : DataBlock) (geometry : list MPoint)
  : exn unit * list MPoint :=
  match deform_loop db geometry [] with
  | Done mPointArray_meshVert => (Return tt, mPointArray_meshVert)
  | Aborted e _ _ => (Raise e, geometry)
  end.

(** *** The operations as the specification words them *)

(** [evaluateWave]: steps 1 to 7, on a wave descriptor
    (dx, dy, steepness, wavelength). *)
Definition evaluateWave (dx dy steepness wavelength : R)
           (point : MPoint) (movement : R) : MPoint :=
  let k := 2 * PI / wavelength in
  let c := sqrt (9.8 / k) in
  let d := normal (mkMFloatVector dx dy 0) in
  let dot := vx d * px point + vy d * pz point in
  let phase := k * (dot - c * movement) in
  let amplitude := steepness / k in
  mkMPoint (vx d * amplitude * cos phase)
           (amplitude * sin phase)
           (vy d * amplitude * cos phase).

(** [accumulate]: base point plus weighted displacement, componentwise. *)
Definition accumulate (basePoint displacement : MPoint) (weight : R)
  : MPoint :=
  mkMPoint (px basePoint + px displacement * weight)
           (py basePoint + py displacement * weight)
           (pz basePoint + pz displacement * weight).

(** One step of the fold over the waves: the running point [q] moves by
    the weighted displacement of the wave evaluated at [q]; a failed
    evaluation stops the fold at [q]. *)
Definition fold_step (movement envelope : R)
           (acc : exn unit * MPoint) (w : float3 * R)
  : exn unit * MPoint :=
  match acc with
  | (Return _, q) =>
      match gerstnerWave (fst w) (snd w) q movement with
      | Return d => (Return tt, accumulate q d envelope)
      | Raise x => (Raise x, q)
      end
  | (Raise x, q) => (Raise x, q)
  end.

Definition waves (db : DataBlock) : list (float3 * R) :=
  [ (waveA_DirStpVal db, waveA_WavelengthVal db);
    (waveB_DirStpVal db, waveB_WavelengthVal db);
    (waveC_DirStpVal db, waveC_WavelengthVal db) ].

Definition valid (db : DataBlock) : Prop :=
  0 < waveA_WavelengthVal db /\ 0 < waveB_WavelengthVal db
  /\ 0 < waveC_WavelengthVal db.

Definition wave_at (db : DataBlock) (w : float3 * R) (q : MPoint) : MPoint :=
  evaluateWave (idx0 (fst w)) (idx1 (fst w)) (idx2 (fst w)) (snd w)
               q (movementVal db).


(** *** The attributes [nodeInitializer] creates *)

Inductive NumericData : Type := kFloat | k3Float.

(** One [MFnNumericAttribute.create], with the properties set on it: the
    default is the one given to [create], or the 0 of the host when none
    is given; [setMin] and [setMax] have one bound per component. *)
Record NumericAttribute : Type := mkNumericAttribute {
  longName : string;
  briefName : string;
  unitType : NumericData;
  defaultValue : R;
  keyable : bool;
  minimum : list R;
  maximum : list R
}.

Definition mObj_inMovement : NumericAttribute :=
  mkNumericAttribute "Movement" "Move" kFloat 1 true [1] [100].

Definition mObj_inWaveA_DirSteep : NumericAttribute :=
  mkNumericAttribute "WaveA(DirX,DirY,Steepness)" "ADirStp" k3Float 0 true
                     [0; 0; 0] [10; 10; 10].

Definition mObj_inWaveA_Wavelength : NumericAttribute :=
  mkNumericAttribute "AWavelength" "AWav" kFloat 1 true [1] [100].

Definition mObj_inWaveB_DirSteep : NumericAttribute :=
  mkNumericAttribute "WaveB" "BDirStp" k3Float 0 true
                     [0; 0; 0] [10; 10; 10].

Definition mObj_inWaveB_Wavelength : NumericAttribute :=
  mkNumericAttribute "BWavelength" "BWav" kFloat 1 true [1] [100].

Definition mObj_inWaveC_DirSteep : NumericAttribute :=
  mkNumericAttribute "WaveC" "CDirStp" k3Float 0 true
                     [0; 0; 0] [10; 10; 10].

Definition mObj_inWaveC_Wavelength : NumericAttribute :=
  mkNumericAttribute "CWavelength" "CWav" kFloat 1 true [1] [100].

(** The values an attribute takes: between its bounds, component by
    component. *)
Definition in_range (a : NumericAttribute) (vals : list R) : Prop :=
  Forall2 Rle (minimum a) vals /\ Forall2 Rle vals (maximum a).

Definition components (w : float3) : list R := [idx0 w; idx1 w; idx2 w].

(** A data block whose custom attributes are all within their bounds;
    the envelope belongs to the base class of the node. *)
Definition accepted (db : DataBlock) : Prop :=
  in_range mObj_inMovement [movementVal db]
  /\ in_range mObj_inWaveA_DirSteep (components (waveA_DirStpVal db))
  /\ in_range mObj_inWaveA_Wavelength [waveA_WavelengthVal db]
  /\ in_range mObj_inWaveB_DirSteep (components (waveB_DirStpVal db))
  /\ in_range mObj_inWaveB_Wavelength [waveB_WavelengthVal db]
  /\ in_range mObj_inWaveC_DirSteep (components (waveC_DirStpVal db))
  /\ in_range mObj_inWaveC_Wavelength [waveC_WavelengthVal db].

(** The data block of a node whose custom attributes are at their
    defaults. *)
Definition default_block (envelope : R) : DataBlock :=
  let d3 (a : NumericAttribute) :=
    (defaultValue a, defaultValue a, defaultValue a) in
  mkDataBlock envelope (defaultValue mObj_inMovement)
              (d3 mObj_inWaveA_DirSteep)
              (defaultValue mObj_inWaveA_Wavelength)
              (d3 mObj_inWaveB_DirSteep)
              (defaultValue mObj_inWaveB_Wavelength)
              (d3 mObj_inWaveC_DirSteep)
              (defaultValue mObj_inWaveC_Wavelength).

(** A point moved up by [h]. *)
Definition raised (h : R) (p : MPoint) : MPoint :=
  mkMPoint (px p) (py p + h) (pz p).

(** *** Sample inputs *)

Definition origin : MPoint := mkMPoint 0 0 0.

(** Three waves of wavelength 1, movement 0, full envelope. *)
Definition three_waves : DataBlock :=
  mkDataBlock 1 0 (1, 0, 1) 1 (0, 1, 1) 1 (1, 1, 1) 1.


End Gerstner.

(** ** The tweenMachine command *)

Module Tween.

(** [MFnAnimCurve.TangentType]. *)
Inductive TangentType : Type :=
| kTangentGlobal | kTangentFixed | kTangentLinear | kTangentFlat
| kTangentSmooth | kTangentStep | kTangentSlow | kTangentFast
| kTangentClamped | kTangentPlateau | kTangentStepNext | kTangentAuto.

Definition TangentType_eq_dec (a b : TangentType) : {a = b} + {a <> b}.
Proof. decide equality. Defined.

(** One key of an animation curve. *)
Record Key : Type := mkKey {
  ktime : R;
  kvalue : R;
  kinTangentType : TangentType;
  koutTangentType : TangentType
}.

(** An animation curve node: the host keeps [keys] in time order. *)
Record AnimCurve : Type := mkAnimCurve {
  isTimeInput : bool;
  keys : list Key
}.

(** *** [MFnAnimCurve], the function set attached to one curve

    An index is an [unsigned int] of the host: the binding refuses a
    negative Python int, the host answers an index with no key by a
    failed status, which the binding raises. *)

Definition numKeys (c : AnimCurve) : Z := Z.of_nat (List.length (keys c)).

Definition key_at (c : AnimCurve) (index : Z) : exn Key :=
  if (index <? 0)%Z then Raise OverflowError
  else match nth_error (keys c) (Z.to_nat index) with
       | Some k => Return k
       | None => Raise RuntimeError
       end.

Definition time (c : AnimCurve) (index : Z) : exn R :=
  k <- key_at c index ;; Return (ktime k).

Definition value (c : AnimCurve) (index : Z) : exn R :=
  k <- key_at c index ;; Return (kvalue k).

Definition inTangentType (c : AnimCurve) (index : Z) : exn TangentType :=
  k <- key_at c index ;; Return (kinTangentType k).

Definition outTangentType (c : AnimCurve) (index : Z) : exn TangentType :=
  k <- key_at c index ;; Return (koutTangentType k).

(** [addKey]: the host puts the new key at its place in time order. *)
Fixpoint insert_key (k : Key) (ks : list Key) : list Key :=
  match ks with
  | [] => [k]
  | k0 :: rest =>
      if Rlt_dec (ktime k) (ktime k0) then k :: k0 :: rest
      else k0 :: insert_key k rest
  end.

Definition addKey (c : AnimCurve) (t v : R) (tin tout : TangentType)
  : AnimCurve :=
  mkAnimCurve (isTimeInput c) (insert_key (mkKey t v tin tout) (keys c)).

Fixpoint set_nth {A : Type} (n : nat) (x : A) (l : list A) : list A :=
  match l, n with
  | [], _ => []
  | _ :: rest, O => x :: rest
  | y :: rest, S n' => y :: set_nth n' x rest
  end.

Definition with_value (v : R) (k : Key) : Key :=
  mkKey (ktime k) v (kinTangentType k) (koutTangentType k).

Definition setValue (c : AnimCurve) (index : Z) (v : R) : exn AnimCurve :=
  k <- key_at c index ;;
  Return (mkAnimCurve (isTimeInput c)
                      (set_nth (Z.to_nat index) (with_value v k) (keys c))).

(** *** The scene and the command object *)

(** A change recorded in an [MAnimCurveChange]: the curve and the time of
    the key that was added. *)
Definition change : Type := (nat * R)%type.

(** What the command reads and writes in the host.  Animation curve nodes
    are named by their place in [curves]; an [MObject] is such a name.
    [mAnimCurveChangeCache] is an attribute of the class
    [tweenMachinePlugin], one object shared by every command object. *)
Record Maya : Type := mkMaya {
  currentTime : R;
  globalInTangentType : TangentType;
  globalOutTangentType : TangentType;
  curves : list AnimCurve;
  selectionIsEmpty : bool;
  selectedAnimCurves : list nat;
  displayed : list string;
  mAnimCurveChangeCache : list change
}.

(** The command object: its attribute [weight] ([None] until the flag
    is parsed). *)
Record tweenMachinePlugin : Type := mkCommand {
  weight : option R
}.

Definition add_displayed (msg : string) (m : Maya) : Maya :=
  mkMaya (currentTime m) (globalInTangentType m) (globalOutTangentType m)
         (curves m) (selectionIsEmpty m) (selectedAnimCurves m)
         (displayed m ++ [msg]) (mAnimCurveChangeCache m).

Definition set_curve (h : nat) (c : AnimCurve) (m : Maya) : Maya :=
  mkMaya (currentTime m) (globalInTangentType m) (globalOutTangentType m)
         (set_nth h c (curves m)) (selectionIsEmpty m)
         (selectedAnimCurves m) (displayed m) (mAnimCurveChangeCache m).

Definition add_change (ch : change) (m : Maya) : Maya :=
  mkMaya (currentTime m) (globalInTangentType m) (globalOutTangentType m)
         (curves m) (selectionIsEmpty m) (selectedAnimCurves m)
         (displayed m) (mAnimCurveChangeCache m ++ [ch]).

(** [om.MGlobal.displayError]. *)
Definition displayError (msg : string) : ST Maya unit :=
  fun m => (Return tt, add_displayed msg m).

(** [mFnAnimCurve.setObject(mObjArray_Anim[i])]: the curve node behind
    the handle. *)
Definition setObject (h : nat) : ST Maya AnimCurve :=
  fun m =>
    match nth_error (curves m) h with
    | Some c => (Return c, m)
    | None => (Raise RuntimeError, m)
    end.

(** The function set writes to the node it is attached to. *)
Definition write_curve (h : nat) (c : AnimCurve) : ST Maya unit :=
  fun m => (Return tt, set_curve h c m).

(** [addKey] and the cache it is given. *)
Definition record_change (ch : change) : ST Maya unit :=
  fun m => (Return tt, add_change ch m).

(** [self.weight] read as a number. *)
Definition weight_of (self : tweenMachinePlugin) : exn R :=
  match weight self with
  | Some w => Return w
  | None => Raise TypeError
  end.

Definition no_bracket_msg : string :=
  "Previous or Next keyframe does not exist for this time for at least one of the animation curves.".

Definition no_animated_msg : string := "No animated object selected".

Definition no_selection_msg : string :=
  "No DAG Object or Anim Curve Slected".

Definition weight_required_msg : string :=
  "Weight value is required. Should be Between 0.0 - 100.0".


(** How one turn of a [for] loop ends. *)
Inductive flow : Type := Next | Break.

Section WithHost.

(** [MFnAnimCurve.findClosest] of the host: the index of the key
    closest to a time. *)
Variable findClosest : AnimCurve -> R -> Z.

(** The body of the [for] loop of [addKeyToAnimCurves], for the curve
    behind the handle [h]. *)
Definition addKeyToAnimCurve (self : tweenMachinePlugin) (currTime : R)
           (h : nat) : ST Maya flow :=
  c <~ setObject h ;;
  let numKeys := numKeys c in
  if isTimeInput c then
    let closest_ind := findClosest c currTime in
    closest_Time <~ lift (time c closest_ind) ;;
    if Req_EM_T closest_Time currTime then
      (* a key exists at the current time: update its value *)
      new_Key_Value <~ lift (
        vp <- value c (closest_ind - 1) ;;
        w <- weight_of self ;;
        vn <- value c (closest_ind + 1) ;;
        Return (vp * (1 - w) + vn * w)) ;;
      c' <~ lift (setValue c closest_ind new_Key_Value) ;;
      write_curve h c' ;;;
      ret Next
    else
      let bracket :=
        if flt closest_Time currTime && (closest_ind <? numKeys - 1)%Z
        then Some (closest_ind, (closest_ind + 1)%Z)
        else if fgt closest_Time currTime && (closest_ind >? 0)%Z
        then Some ((closest_ind - 1)%Z, closest_ind)
        else None in
      match bracket with
      | None => displayError no_bracket_msg ;;; ret Break
      | Some (prev_Key_Ind, next_Key_Ind) =>
          new_Key_inTangent <~ lift (outTangentType c prev_Key_Ind) ;;
          new_Key_outTangent <~ lift (inTangentType c next_Key_Ind) ;;
          m <~ get ;;
          let fixed :=
            if TangentType_eq_dec new_Key_inTangent kTangentFixed
            then true
            else if TangentType_eq_dec new_Key_outTangent kTangentFixed
            then true else false in
          let new_Key_inTangent :=
            if fixed then globalInTangentType m
            else new_Key_inTangent in
          let new_Key_outTangent :=
            if fixed then globalOutTangentType m
            else new_Key_outTangent in
          new_Key_Value <~ lift (
            vp <- value c prev_Key_Ind ;;
            w <- weight_of self ;;
            vn <- value c next_Key_Ind ;;
            Return (vp * (1 - w) + vn * w)) ;;
          write_curve h (addKey c currTime new_Key_Value
                                new_Key_inTangent new_Key_outTangent) ;;;
          record_change (h, currTime) ;;;
          ret Next
      end
  else ret Next.

(** The [for] loop over the array of handles: how it ends, by [break]
    or by running out of curves. *)
Fixpoint for_curves (self : tweenMachinePlugin)
         (mObjArray_Anim : list nat) (currTime : R) : ST Maya flow :=
  match mObjArray_Anim with
  | [] => ret Next
  | h :: rest =>
      fl <~ addKeyToAnimCurve self currTime h ;;
      match fl with
      | Next => for_curves self rest currTime
      | Break => ret Break
      end
  end.

(** [addKeyToAnimCurves]. *)
Definition addKeyToAnimCurves (self : tweenMachinePlugin)
           (mObjArray_Anim : list nat) (currTime : R) : ST Maya unit :=
  for_curves self mObjArray_Anim currTime ;;; ret tt.

(** A method of the command runs on the command object and the host
    together. *)
Definition on_host {A : Type} (m : ST Maya A)
  : ST (tweenMachinePlugin * Maya) A :=
  fun s =>
    match m (snd s) with
    | (r, maya') => (r, (fst s, maya'))
    end.

(** [self.weight /= 100.0]. *)
Definition rescale_weight : ST (tweenMachinePlugin * Maya) unit :=
  fun s =>
    match weight_of (fst s) with
    | Return w =>
        match truediv w 100 with
        | Return w' => (Return tt, (mkCommand (Some w'), snd s))
        | Raise e => (Raise e, s)
        end
    | Raise e => (Raise e, s)
    end.

(** [redoIt].  [getAnimCurves] fills the array with the handles of the
    animation curves of the selection. *)
Definition redoIt : ST (tweenMachinePlugin * Maya) unit :=
  s <~ get ;;
  let currTime := currentTime (snd s) in
  rescale_weight ;;;
  if negb (selectionIsEmpty (snd s)) then
    let mObjArray_Anim := selectedAnimCurves (snd s) in
    if (Z.of_nat (List.length mObjArray_Anim) >? 0)%Z then
      self <~ get ;;
      on_host (addKeyToAnimCurves (fst self) mObjArray_Anim currTime)
    else on_host (displayError no_animated_msg)
  else on_host (displayError no_selection_msg).

(** [argumentParser], the weight flag: when it is set, its value is
    stored in the command object.  What the help flag does, and an
    argument list [MArgDatabase] refuses, are in [commandResult] and
    [invoke_flags] below. *)
Definition argumentParser (argList : option R)
  : ST (tweenMachinePlugin * Maya) unit :=
  fun s =>
    match argList with
    | Some w => (Return tt, (mkCommand (Some w), snd s))
    | None => (Return tt, s)
    end.

(** [doIt]. *)
Definition doIt (argList : option R)
  : ST (tweenMachinePlugin * Maya) unit :=
  argumentParser argList ;;;
  s <~ get ;;
  match weight (fst s) with
  | Some w =>
      if fle w 100 && fge w 0 then redoIt
      else on_host (displayError weight_required_msg)
  | None => on_host (displayError weight_required_msg)
  end.

(** [commandCreator]: every invocation of the command runs [doIt] on a
    new command object. *)
Definition commandCreator : tweenMachinePlugin := mkCommand None.

Definition invoke (argList : option R) (maya : Maya)
  : exn unit * (tweenMachinePlugin * Maya) :=
  doIt argList (commandCreator, maya).




End WithHost.

(** *** The selection and [getAnimCurves] *)

(** [needle in hay] on strings. *)
Definition contains (needle hay : string) : bool :=
  match index 0 needle hay with
  | Some _ => true
  | None => false
  end.

(** The node at the other end of a connection of a plug: its
    [apiTypeStr], and its place in [curves] when it is a curve. *)
Record Connection : Type := mkConnection {
  apiTypeStr : string;
  node : nat
}.

(** An item of the active selection list: an animation curve node (what
    the [kAnimCurve] filter lets through), a DAG node (what the
    [kDagNode] filter lets through) with the answer of [isAnimated] and,
    for each plug [findAnimatedPlugs] finds, what [connectedTo] finds, or
    any other node. *)
Inductive Selected : Type :=
| SelAnimCurve (h : nat)
| SelDagNode (isAnimated : bool) (animatedPlugs : list (list Connection))
| SelOther.

(** The first [while] loop: the selected animation curves. *)
Fixpoint selected_curves (mItSelectionList : list Selected)
         (mObjArray_Anim : list nat) : list nat :=
  match mItSelectionList with
  | [] => mObjArray_Anim
  | SelAnimCurve h :: rest => selected_curves rest (mObjArray_Anim ++ [h])
  | _ :: rest => selected_curves rest mObjArray_Anim
  end.

(** The loop over the connections of one plug. *)
Fixpoint connected_curves (mPlugArray2 : list Connection)
         (mObjArray_Anim : list nat) : list nat :=
  match mPlugArray2 with
  | [] => mObjArray_Anim
  | c :: rest =>
      if contains "kAnimCurve" (apiTypeStr c)
      then connected_curves rest (mObjArray_Anim ++ [node c])
      else connected_curves rest mObjArray_Anim
  end.

(** The loop over the animated plugs of one node. *)
Fixpoint plug_curves (mPlugArray_animated : list (list Connection))
         (mObjArray_Anim : list nat) : list nat :=
  match mPlugArray_animated with
  | [] => mObjArray_Anim
  | mPlugArray2 :: rest =>
      plug_curves rest (connected_curves mPlugArray2 mObjArray_Anim)
  end.

(** The second [while] loop: the curves of the selected DAG nodes. *)
Fixpoint dag_curves (mItSelectionList : list Selected)
         (mObjArray_Anim : list nat) : list nat :=
  match mItSelectionList with
  | [] => mObjArray_Anim
  | SelDagNode true animatedPlugs :: rest =>
      dag_curves rest (plug_curves animatedPlugs mObjArray_Anim)
  | _ :: rest => dag_curves rest mObjArray_Anim
  end.

(** [getAnimCurves]: the array after the call. *)
Definition getAnimCurves (mSel : list Selected) (mObjArray_Anim : list nat)
  : list nat :=
  let mObjArray_Anim := selected_curves mSel mObjArray_Anim in
  if (Z.of_nat (List.length mObjArray_Anim) <=? 0)%Z
  then dag_curves mSel mObjArray_Anim
  else mObjArray_Anim.

(** The scene with [mSel] as the active selection: [redoIt] calls
    [getAnimCurves] on a new array. *)
Definition with_selection (mSel : list Selected) (m : Maya) : Maya :=
  mkMaya (currentTime m) (globalInTangentType m) (globalOutTangentType m)
         (curves m)
         (match mSel with [] => true | _ :: _ => false end)
         (getAnimCurves mSel []) (displayed m) (mAnimCurveChangeCache m).

(** The curve an item of the selection is, if it is one. *)
Definition curve_of (item : Selected) : list nat :=
  match item with
  | SelAnimCurve h => [h]
  | _ => []
  end.

(** The curves behind the animated plugs of an item, if it is a DAG node
    that is animated: one entry per connection to a node whose type
    string contains kAnimCurve. *)
Definition curves_behind (item : Selected) : list nat :=
  match item with
  | SelDagNode true animatedPlugs =>
      flat_map
        (fun mPlugArray2 =>
           map node
               (filter (fun c => contains "kAnimCurve" (apiTypeStr c))
                       mPlugArray2))
        animatedPlugs
  | _ => []
  end.

(** *** What one turn of the loop can do to the scene *)

(** Nothing; the error displayed; the value of one key of the curve set;
    or one key added to the curve and the change recorded. *)
Definition turn (t : R) (h : nat) (m m' : Maya) : Prop :=
  m' = m
  \/ m' = add_displayed no_bracket_msg m
  \/ (exists c i k v,
        nth_error (curves m) h = Some c /\ key_at c i = Return k
        /\ m' = set_curve h
                  (mkAnimCurve (isTimeInput c)
                     (set_nth (Z.to_nat i) (with_value v k) (keys c))) m)
  \/ (exists c v tin tout,
        nth_error (curves m) h = Some c
        /\ m' = add_change (h, t) (set_curve h (addKey c t v tin tout) m)).

(** The scene settings the command only reads. *)
Definition same_settings (m m' : Maya) : Prop :=
  currentTime m' = currentTime m
  /\ globalInTangentType m' = globalInTangentType m
  /\ globalOutTangentType m' = globalOutTangentType m
  /\ selectionIsEmpty m' = selectionIsEmpty m
  /\ selectedAnimCurves m' = selectedAnimCurves m
  /\ List.length (curves m') = List.length (curves m).

(** Every key of [c] is still in [c'], at its time and with its tangent
    types. *)
Definition keeps_keys (c c' : AnimCurve) : Prop :=
  isTimeInput c' = isTimeInput c
  /\ forall k, In k (keys c) ->
               exists k', In k' (keys c')
                          /\ ktime k' = ktime k
                          /\ kinTangentType k' = kinTangentType k
                          /\ koutTangentType k' = koutTangentType k.

(** *** Undo *)

(** The first key at time [t] taken out of a list of keys. *)
Fixpoint remove_key (t : R) (ks : list Key) : list Key :=
  match ks with
  | [] => []
  | k :: rest =>
      if Req_EM_T (ktime k) t then rest else k :: remove_key t rest
  end.

(** One recorded change taken back: the key [addKey] added to the curve
    is removed. *)
Definition undo_change (ch : change) (m : Maya) : Maya :=
  match nth_error (curves m) (fst ch) with
  | Some c =>
      set_curve (fst ch)
                (mkAnimCurve (isTimeInput c) (remove_key (snd ch) (keys c)))
                m
  | None => m
  end.

(** [undoIt]: [MAnimCurveChange.undoIt] of the host takes back the
    changes the cache holds, the last one first; the cache keeps them. *)
Definition undoIt : ST (tweenMachinePlugin * Maya) unit :=
  fun s =>
    (Return tt,
     (fst s,
      fold_right undo_change (snd s) (mAnimCurveChangeCache (snd s)))).

(** [isUndoable]. *)
Definition isUndoable : bool := true.

(** *** Curves in time order, and a [findClosest] *)

Definition sorted (c : AnimCurve) : Prop :=
  StronglySorted (fun a b => ktime a < ktime b) (keys c).

(** Every curve of the scene is in time order. *)
Definition all_sorted (m : Maya) : Prop :=
  forall j c, nth_error (curves m) j = Some c -> sorted c.

(** The first key at the least distance from [t], by one scan: [i] is the
    index of the next key, [best] the index found so far and [bestd] its
    distance. *)
Fixpoint scan_closest (t : R) (ks : list Key) (i best : Z) (bestd : R)
  : Z :=
  match ks with
  | [] => best
  | k :: rest =>
      if flt (Rabs (ktime k - t)) bestd
      then scan_closest t rest (i + 1) i (Rabs (ktime k - t))
      else scan_closest t rest (i + 1) best bestd
  end.

Definition first_closest (c : AnimCurve) (t : R) : Z :=
  match keys c with
  | [] => 0
  | k :: rest => scan_closest t rest 1 0 (Rabs (ktime k - t))
  end.

(** What the command relies on from [findClosest]: on a curve with keys
    it answers the index of a key, and no key is closer to the time. *)
Definition closest_spec (findClosest : AnimCurve -> R -> Z) : Prop :=
  forall c t,
    keys c <> [] ->
    exists k,
      key_at c (findClosest c t) = Return k
      /\ forall i k', key_at c i = Return k' ->
                      Rabs (ktime k - t) <= Rabs (ktime k' - t).

(** *** The plan of the specification *)

(** The interpolated value, on a weight that is a fraction. *)
Definition tween_value (w : R) (kp kn : Key) : R :=
  kvalue kp * (1 - w) + kvalue kn * w.

(** The tangent types of an inserted key: the out-tangent of the
    previous key and the in-tangent of the next, or the global defaults
    of the host when one of the two is fixed. *)
Definition tween_tangents (m : Maya) (kp kn : Key)
  : TangentType * TangentType :=
  if TangentType_eq_dec (koutTangentType kp) kTangentFixed
  then (globalInTangentType m, globalOutTangentType m)
  else if TangentType_eq_dec (kinTangentType kn) kTangentFixed
  then (globalInTangentType m, globalOutTangentType m)
  else (koutTangentType kp, kinTangentType kn).

(** [InsertNew]: the key put between [kp] and [kn]. *)
Definition inserted_key (m : Maya) (w t : R) (kp kn : Key) : Key :=
  mkKey t (tween_value w kp kn)
        (fst (tween_tangents m kp kn)) (snd (tween_tangents m kp kn)).

(** *** Sample inputs *)

Definition linear_key (t v : R) : Key :=
  mkKey t v kTangentLinear kTangentLinear.

(** Keys at times 0, 10, 20 of values 0, 10, 20. *)
Definition ramp : AnimCurve :=
  mkAnimCurve true [linear_key 0 0; linear_key 10 10; linear_key 20 20].

(** The scene with [ramp] selected, at a current time. *)
Definition ramp_scene (t : R) : Maya :=
  mkMaya t kTangentAuto kTangentAuto [ramp] false [0%nat] [] [].

(** [ramp] after a key of value [v] has been put at time 5. *)
Definition ramp_with_5 (v : R) : AnimCurve :=
  mkAnimCurve true
    [linear_key 0 0; linear_key 5 v; linear_key 10 10; linear_key 20 20].

(** Keys at times 0 and 30. *)
Definition long_ramp : AnimCurve :=
  mkAnimCurve true [linear_key 0 0; linear_key 30 30].

(** [ramp] and [long_ramp] selected, in this order. *)
Definition two_curves (t : R) : Maya :=
  mkMaya t kTangentAuto kTangentAuto [ramp; long_ramp] false
         [0%nat; 1%nat] [] [].

(** Two keys whose tangents are of the fixed kind. *)
Definition fixed_pair : AnimCurve :=
  mkAnimCurve true [mkKey 0 0 kTangentFixed kTangentFixed;
                    mkKey 10 10 kTangentFixed kTangentFixed].

Definition fixed_scene (t : R) : Maya :=
  mkMaya t kTangentAuto kTangentSmooth [fixed_pair] false [0%nat] [] [].

End Tween.

(** ** The slider window, [tweenMachineUI.py] *)

Module TweenUI.

(** [str] of an int. *)
Definition str (n : Z) : string := NilZero.string_of_int (Z.to_int n).

(** The window: the two flags, the value of [tweenSlider] (its minimum
    is 0 and its maximum 100) and the text of [pLabel2]. *)
Record TweenMainWindow : Type := mkWindow {
  sliderPressedBool : bool;
  sliderReleasedBool : bool;
  tweenSlider : Z;
  pLabel2 : string
}.

(** [__init__]: the slider is set to 50 before its signals are
    connected. *)
Definition init : TweenMainWindow := mkWindow false true 50 "50".

(** What Qt makes of a value the slider is moved to: it is kept between
    the minimum and the maximum. *)
Definition bound (v : Z) : Z := Z.max 0 (Z.min 100 v).

Section WithHost.

Variable findClosest : Tween.AnimCurve -> R -> Z.

(** [cmds.tweenMachine(weight = weightVal)]: the command runs on the
    scene; an exception of the command is the exception of the call. *)
Definition tweenMachine (weightVal : Z)
  : ST (TweenMainWindow * Tween.Maya) unit :=
  fun s =>
    match Tween.invoke findClosest (Some (IZR weightVal)) (snd s) with
    | (r, (_, maya')) => (r, (fst s, maya'))
    end.

(** [valueChanged]. *)
Definition valueChanged : ST (TweenMainWindow * Tween.Maya) unit :=
  s <~ get ;;
  let self := fst s in
  let weightVal := tweenSlider self in
  if sliderPressedBool self && negb (sliderReleasedBool self) then
    put (mkWindow (sliderPressedBool self) (sliderReleasedBool self)
                  (tweenSlider self) (str weightVal), snd s) ;;;
    tweenMachine weightVal
  else ret tt.

(** [sliderPressed]. *)
Definition sliderPressed : ST (TweenMainWindow * Tween.Maya) unit :=
  fun s =>
    (Return tt,
     (mkWindow true false (tweenSlider (fst s)) (pLabel2 (fst s)), snd s)).

(** [sliderReleased]. *)
Definition sliderReleased : ST (TweenMainWindow * Tween.Maya) unit :=
  fun s =>
    (Return tt,
     (mkWindow false true (tweenSlider (fst s)) (pLabel2 (fst s)), snd s)).

(** What the user does to the slider. *)
Inductive gesture : Type :=
| Press
| Release
| Move (v : Z).

(** The slots Qt calls for a gesture.  A move sets the value of the
    slider, and [valueChanged] is emitted when the value is a new one. *)
Definition slot (g : gesture) : ST (TweenMainWindow * Tween.Maya) unit :=
  match g with
  | Press => sliderPressed
  | Release => sliderReleased
  | Move v =>
      fun s =>
        let self := fst s in
        if (bound v =? tweenSlider self)%Z then (Return tt, s)
        else valueChanged
               (mkWindow (sliderPressedBool self) (sliderReleasedBool self)
                         (bound v) (pLabel2 self), snd s)
  end.

(** A session: the slots run one after the other; an exception in a slot
    is reported and the event loop goes on. *)
Fixpoint session (gs : list gesture) (s : TweenMainWindow * Tween.Maya)
  : TweenMainWindow * Tween.Maya :=
  match gs with
  | [] => s
  | g :: rest => session rest (snd (slot g s))
  end.

End WithHost.

(** The two flags say the same thing and the slider is within its
    range. *)
Definition consistent (self : TweenMainWindow) : Prop :=
  sliderPressedBool self = negb (sliderReleasedBool self)
  /\ (0 <= tweenSlider self <= 100)%Z.

End TweenUI.

(** * Properties of the deformer *)

Module GerstnerProofs.

Import Gerstner.

(** ** Arithmetic that raises *)

Lemma truediv_nonzero (a b : R) : b <> 0 -> truediv a b = Return (a / b).
Proof.
  intros Hb. unfold truediv.
  destruct (Req_EM_T b 0) as [E | _]; [contradiction | reflexivity].
Qed.


Lemma math_sqrt_nonneg (x : R) : 0 <= x -> math_sqrt x = Return (sqrt x).
Proof.
  intros Hx. unfold math_sqrt.
  destruct (Rlt_dec x 0) as [L | _]; [lra | reflexivity].
Qed.


Lemma wavenumber_pos (wavelength : R) :
  0 < wavelength -> 0 < 2 * PI / wavelength.
Proof.
  intros Hw. apply Rdiv_lt_0_compat; [apply Rgt_2PI_0 | assumption].
Qed.


Lemma gravity_over_wavenumber_pos (k : R) : 0 < k -> 0 < 9.8 / k.
Proof. intros Hk. apply Rdiv_lt_0_compat; lra. Qed.


(** ** One wave *)

(** On a positive wavelength [gerstnerWave] returns, and what it returns
    is [evaluateWave]. *)
Lemma gerstnerWave_evaluateWave (dx dy steepness wavelength : R)
      (p : MPoint) (m : R) :
  0 < wavelength ->
  gerstnerWave (dx, dy, steepness) wavelength p m
  = Return (evaluateWave dx dy steepness wavelength p m).
Proof.
  intros Hw. pose proof (wavenumber_pos wavelength Hw) as Hk.
  unfold gerstnerWave, evaluateWave.
  rewrite (truediv_nonzero (2 * PI) wavelength) by lra. cbn [bind].
  rewrite (truediv_nonzero 9.8) by lra. cbn [bind].
  rewrite math_sqrt_nonneg
    by (left; apply gravity_over_wavenumber_pos; assumption).
  cbn [bind]. rewrite truediv_nonzero by lra. cbn [bind idx0 idx1 idx2 fst snd].
  f_equal. f_equal; ring.
Qed.

(** C1: for a wave descriptor (dx, dy, steepness) with a positive
    wavelength, every point p and every movement value m, the wave
    evaluation returns (d.x * a * cos f, a * sin f, d.y * a * cos f) with
    k = 2 pi / wavelength, c = sqrt (9.8 / k), d the normalised (dx, dy),
    dot = d.x * p.x + d.y * p.z, f = k * (dot - c * m), a = steepness / k. *)
Theorem gerstnerWave_displacement (dx dy steepness wavelength : R)
        (p : MPoint) (m : R) :
  0 < wavelength ->
  let k := 2 * PI / wavelength in
  let c := sqrt (9.8 / k) in
  let d := normal (mkMFloatVector dx dy 0) in
  let dot := vx d * px p + vy d * pz p in
  let f := k * (dot - c * m) in
  let a := steepness / k in
  gerstnerWave (dx, dy, steepness) wavelength p m
  = Return (mkMPoint (vx d * a * cos f) (a * sin f) (vy d * a * cos f)).
Proof.
  intros Hw. cbv zeta.
  rewrite gerstnerWave_evaluateWave by assumption. reflexivity.
Qed.

Lemma gerstnerWave_displacement_witness :
  gerstnerWave (1, 0, 1) 1 (mkMPoint 0 0 0) 0
  = Return (evaluateWave 1 0 1 1 (mkMPoint 0 0 0) 0).
Proof.
  apply (gerstnerWave_displacement 1 0 1 1 (mkMPoint 0 0 0) 0). lra.
Defined.

(** C10: two points that differ only in their y coordinate (same x, same
    z) get the same result from one wave evaluation, for every wave,
    wavelength and movement value: the displacement never depends on the
    height of the point. *)
Theorem gerstnerWave_ignores_height (wave : float3) (wavelength : R)
        (p q : MPoint) (m : R) :
  px p = px q -> pz p = pz q ->
  gerstnerWave wave wavelength p m = gerstnerWave wave wavelength q m.
Proof.
  destruct p as [x y z], q as [x' y' z']. cbn [px pz].
  intros -> ->. reflexivity.
Qed.

Lemma gerstnerWave_ignores_height_witness :
  gerstnerWave (1, 1, 0.5) 2 (mkMPoint 3 0 4) 1
  = gerstnerWave (1, 1, 0.5) 2 (mkMPoint 3 7 4) 1.
Proof.
  apply (gerstnerWave_ignores_height (1, 1, 0.5) 2
           (mkMPoint 3 0 4) (mkMPoint 3 7 4) 1); reflexivity.
Defined.

(** ** Three waves on one point *)

Lemma addToPosition_accumulate (p d : MPoint) (w : R) :
  addToPosition p d w = accumulate p d w.
Proof. reflexivity. Qed.

Lemma addWave_returns (wave : float3) (wavelength m e : R)
      (p d : MPoint) :
  gerstnerWave wave wavelength p m = Return d ->
  addWave wave wavelength m e p = (Return tt, accumulate p d e).
Proof.
  intros H. unfold addWave, seq, get, lift, put. rewrite H. reflexivity.
Qed.

Lemma addWave_raises (wave : float3) (wavelength m e : R)
      (p : MPoint) (x : exception) :
  gerstnerWave wave wavelength p m = Raise x ->
  addWave wave wavelength m e p = (Raise x, p).
Proof.
  intros H. unfold addWave, seq, get, lift, put. rewrite H. reflexivity.
Qed.

Lemma gerstnerWave_wave_at (db : DataBlock) (w : float3 * R) (q : MPoint) :
  0 < snd w ->
  gerstnerWave (fst w) (snd w) q (movementVal db) = Return (wave_at db w q).
Proof.
  destruct w as [[[dx dy] st] wl]. cbn [fst snd]. intros Hw.
  apply gerstnerWave_evaluateWave. assumption.
Qed.

(** C2: deforming one point is the left-to-right fold over the waves A,
    B, C: p1 = p + envelope * wave A at p, p2 = p1 + envelope * wave B at
    p1 (the displaced point, not p), p3 = p2 + envelope * wave C at p2,
    and the result is p3.  The first part is the fold with the evaluation
    of the code, for every data block; the second names p1, p2, p3 for
    the wave fields of the data model (positive wavelengths), where every
    evaluation returns. *)
Theorem deformPoint_fold (db : DataBlock) (p : MPoint) :
  deformPoint db p
  = fold_left (fold_step (movementVal db) (envelopeVal db)) (waves db)
              (Return tt, p)
  /\ (valid db ->
      let A := (waveA_DirStpVal db, waveA_WavelengthVal db) in
      let B := (waveB_DirStpVal db, waveB_WavelengthVal db) in
      let C := (waveC_DirStpVal db, waveC_WavelengthVal db) in
      let p1 := accumulate p (wave_at db A p) (envelopeVal db) in
      let p2 := accumulate p1 (wave_at db B p1) (envelopeVal db) in
      let p3 := accumulate p2 (wave_at db C p2) (envelopeVal db) in
      deformPoint db p = (Return tt, p3)).
Proof.
  split.
  - unfold deformPoint, waves, seq. cbn [fold_left fold_step fst snd].
    destruct (gerstnerWave (waveA_DirStpVal db) (waveA_WavelengthVal db)
                           p (movementVal db)) as [dA | x] eqn:EA.
    + rewrite (addWave_returns _ _ _ _ _ _ EA).
      set (p1 := accumulate p dA (envelopeVal db)).
      cbn [fold_step fst snd].
      destruct (gerstnerWave (waveB_DirStpVal db) (waveB_WavelengthVal db)
                             p1 (movementVal db)) as [dB | x] eqn:EB.
      * rewrite (addWave_returns _ _ _ _ _ _ EB).
        set (p2 := accumulate p1 dB (envelopeVal db)).
        cbn [fold_step fst snd].
        destruct (gerstnerWave (waveC_DirStpVal db)
                               (waveC_WavelengthVal db)
                               p2 (movementVal db)) as [dC | x] eqn:EC.
        -- rewrite (addWave_returns _ _ _ _ _ _ EC). reflexivity.
        -- rewrite (addWave_raises _ _ _ _ _ _ EC). reflexivity.
      * rewrite (addWave_raises _ _ _ _ _ _ EB). reflexivity.
    + rewrite (addWave_raises _ _ _ _ _ _ EA). reflexivity.
  - intros (HA & HB & HC). cbv zeta. unfold deformPoint, seq.
    pose proof (gerstnerWave_wave_at db
                  (waveA_DirStpVal db, waveA_WavelengthVal db) p HA) as EA.
    cbn [fst snd] in EA. rewrite (addWave_returns _ _ _ _ _ _ EA).
    pose proof (gerstnerWave_wave_at db
                  (waveB_DirStpVal db, waveB_WavelengthVal db)
                  (accumulate p (wave_at db (waveA_DirStpVal db,
                                             waveA_WavelengthVal db) p)
                              (envelopeVal db)) HB) as EB.
    cbn [fst snd] in EB. rewrite (addWave_returns _ _ _ _ _ _ EB).
    match goal with
    | |- addWave _ _ _ _ ?q = _ =>
        pose proof (gerstnerWave_wave_at db
                      (waveC_DirStpVal db, waveC_WavelengthVal db) q HC)
          as EC
    end.
    cbn [fst snd] in EC. rewrite (addWave_returns _ _ _ _ _ _ EC).
    reflexivity.
Qed.

Lemma deformPoint_fold_witness :
  valid three_waves
  /\ exists p3, deformPoint three_waves origin = (Return tt, p3).
Proof.
  assert (V : valid three_waves)
    by (unfold valid, three_waves; cbn; repeat split; lra).
  split; [exact V | ].
  eexists. exact (proj2 (deformPoint_fold three_waves origin) V).
Defined.

(** ** The wave at sample points *)

Lemma normal_x_axis :
  normal (mkMFloatVector 1 0 0) = mkMFloatVector 1 0 0.
Proof.
  unfold normal, vector_length. cbn [vx vy vz].
  replace (1 * 1 + 0 * 0 + 0 * 0) with 1 by ring. rewrite sqrt_1.
  destruct (Req_EM_T 1 0) as [E | _]; [lra | ].
  f_equal; field.
Qed.

Lemma normal_y_axis :
  normal (mkMFloatVector 0 1 0) = mkMFloatVector 0 1 0.
Proof.
  unfold normal, vector_length. cbn [vx vy vz].
  replace (0 * 0 + 1 * 1 + 0 * 0) with 1 by ring. rewrite sqrt_1.
  destruct (Req_EM_T 1 0) as [E | _]; [lra | ].
  f_equal; field.
Qed.

(** [normal] of a vector that is not zero has length 1. *)
Lemma normal_unit_length (v : MFloatVector) :
  vector_length v <> 0 -> vector_length (normal v) = 1.
Proof.
  intros HL. unfold normal.
  destruct (Req_EM_T (vector_length v) 0) as [E | _]; [contradiction | ].
  set (L := vector_length v) in *.
  assert (HS : 0 <= vx v * vx v + vy v * vy v + vz v * vz v) by nra.
  assert (HLL : L * L = vx v * vx v + vy v * vy v + vz v * vz v)
    by (apply sqrt_sqrt; assumption).
  unfold vector_length at 1. cbn [vx vy vz].
  replace (vx v / L * (vx v / L) + vy v / L * (vy v / L)
           + vz v / L * (vz v / L))
    with ((vx v * vx v + vy v * vy v + vz v * vz v) / (L * L))
    by (field; assumption).
  rewrite <- HLL. unfold Rdiv. rewrite Rinv_r by nra. apply sqrt_1.
Qed.

(** Wave (1, 0, 1) of wavelength 1 at the origin, movement 0: the point
    moves along x by the amplitude 1 / (2 pi). *)
Lemma wave_x_at_origin :
  evaluateWave 1 0 1 1 origin 0 = mkMPoint (/ (2 * PI)) 0 0.
Proof.
  unfold evaluateWave. rewrite normal_x_axis. cbn [vx vy px pz origin].
  pose proof PI_neq0 as HPI.
  replace (2 * PI / 1 * (1 * 0 + 0 * 0 - sqrt (9.8 / (2 * PI / 1)) * 0))
    with 0 by (field; assumption).
  rewrite cos_0, sin_0. f_equal; field; assumption.
Qed.

Lemma amplitude_pos : 0 < / (2 * PI).
Proof. apply Rinv_0_lt_compat. apply Rgt_2PI_0. Qed.

(** ** Invalid wavelengths *)




Lemma addWave_cases (wave : float3) (wavelength m e : R) (p : MPoint) :
  (exists d, gerstnerWave wave wavelength p m = Return d
             /\ addWave wave wavelength m e p = (Return tt, accumulate p d e))
  \/ (exists x, gerstnerWave wave wavelength p m = Raise x
                /\ addWave wave wavelength m e p = (Raise x, p)).
Proof.
  destruct (gerstnerWave wave wavelength p m) as [d | x] eqn:E.
  - left. exists d. split; [reflexivity | ].
    apply addWave_returns. assumption.
  - right. exists x. split; [reflexivity | ].
    apply addWave_raises. assumption.
Qed.


(** ** The pass over the mesh *)

(** What the loop has appended when it runs to the end: one deformed
    point per point of the iterator, in order. *)
Lemma deform_loop_done (db : DataBlock) (geoIterator : list MPoint) :
  forall acc out,
    deform_loop db geoIterator acc = Done out ->
    exists out',
      out = acc ++ out'
      /\ Forall2 (fun p q => deformPoint db p = (Return tt, q))
                 geoIterator out'.
Proof.
  induction geoIterator as [ | position rest IH]; intros acc out H.
  - cbn in H. injection H as <-. exists []. split.
    + symmetry. apply app_nil_r.
    + constructor.
  - cbn in H.
    destruct (deformPoint db position) as [[[] | x] q] eqn:E;
      [ | discriminate ].
    destruct (IH _ _ H) as (out' & -> & F).
    exists (q :: out'). split.
    + rewrite <- app_assoc. reflexivity.
    + constructor; assumption.
Qed.

(** All or nothing: [deform] raises and leaves the geometry as it was,
    or returns with every point deformed. *)
Lemma deform_all_or_nothing (db : DataBlock) (geometry : list MPoint) :
  (exists x, deform db geometry = (Raise x, geometry))
  \/ (exists out,
        deform db geometry = (Return tt, out)
        /\ Forall2 (fun p q => deformPoint db p = (Return tt, q))
                   geometry out).
Proof.
  unfold deform.
  destruct (deform_loop db geometry []) as [out | x acc q] eqn:E.
  - right. exists out. split; [reflexivity | ].
    destruct (deform_loop_done _ _ _ _ E) as (out' & -> & F). exact F.
  - left. exists x. reflexivity.
Qed.

Lemma deform_preserves_count (db : DataBlock) (geometry out : list MPoint) :
  deform db geometry = (Return tt, out) ->
  List.length out = List.length geometry.
Proof.
  intros H. destruct (deform_all_or_nothing db geometry)
    as [(x & E) | (out' & E & F)]; rewrite E in H.
  - discriminate.
  - injection H as <-. symmetry. exact (Forall2_length F).
Qed.





(** ** Order of composition *)

(** One wave sees a point only through its projection on the wave
    direction, d.x * x + d.y * z. *)
Lemma gerstnerWave_projection (wave : float3) (wavelength : R)
      (p q : MPoint) (m : R) :
  let d := normal (mkMFloatVector (idx0 wave) (idx1 wave) 0) in
  vx d * px p + vy d * pz p = vx d * px q + vy d * pz q ->
  gerstnerWave wave wavelength p m = gerstnerWave wave wavelength q m.
Proof.
  cbv zeta. intros H. unfold gerstnerWave. rewrite H. reflexivity.
Qed.

(** Wave (1, 0, 1) of wavelength 1, movement 0, at the point the same
    wave has moved the origin to: the phase is 1. *)
Lemma wave_x_at_displaced :
  evaluateWave 1 0 1 1 (mkMPoint (/ (2 * PI)) 0 0) 0
  = mkMPoint (/ (2 * PI) * cos 1) (/ (2 * PI) * sin 1) 0.
Proof.
  unfold evaluateWave. rewrite normal_x_axis. cbn [vx vy px pz].
  pose proof PI_neq0 as HPI.
  replace (2 * PI / 1
           * (1 * / (2 * PI) + 0 * 0 - sqrt (9.8 / (2 * PI / 1)) * 0))
    with 1 by (field; assumption).
  f_equal; field; assumption.
Qed.

Lemma sin_1_pos : 0 < sin 1.
Proof.
  apply sin_gt_0; [lra | ]. pose proof PI2_1. lra.
Qed.

(** The two components [normal] leaves of a direction that is not zero
    have squares that add up to 1. *)
Lemma normal_direction_unit (dx dy : R) :
  vector_length (mkMFloatVector dx dy 0) <> 0 ->
  let d := normal (mkMFloatVector dx dy 0) in
  vx d * vx d + vy d * vy d = 1.
Proof.
  intros HL. cbv zeta.
  pose proof (normal_unit_length _ HL) as HU.
  assert (Hz : vz (normal (mkMFloatVector dx dy 0)) = 0).
  { unfold normal.
    destruct (Req_EM_T (vector_length (mkMFloatVector dx dy 0)) 0);
      [contradiction | ].
    cbn [vz]. unfold Rdiv. ring. }
  unfold vector_length in HU. rewrite Hz in HU.
  set (d := normal (mkMFloatVector dx dy 0)) in *.
  assert (HS : 0 <= vx d * vx d + vy d * vy d + 0 * 0) by nra.
  pose proof (sqrt_sqrt _ HS) as Hsq. rewrite HU in Hsq. lra.
Qed.

(** The cosine is 1 nowhere within one turn of 0 but at 0. *)
Lemma cos_one_far (x : R) : 0 < Rabs x < 2 * PI -> cos x <> 1.
Proof.
  assert (Hpos : forall y, 0 < y < 2 * PI -> cos y <> 1).
  { intros y [H0 H2] E.
    replace y with (2 * (y / 2)) in E by field.
    rewrite cos_2a_sin in E.
    assert (Hs : 0 < sin (y / 2)) by (apply sin_gt_0; lra).
    nra. }
  intros [H0 H2]. destruct (Rcase_abs x) as [Hneg | Hnn].
  - rewrite (Rabs_left x Hneg) in H0, H2.
    rewrite <- (cos_neg x). apply Hpos. lra.
  - rewrite (Rabs_right x Hnn) in H0, H2. apply Hpos. lra.
Qed.

(** Two points whose projections on the direction of a wave differ by
    less than one wavelength, and do differ, do not get the same
    displacement from the wave, when its steepness is not zero. *)
Lemma shifted_wave_differs (dx dy steepness wavelength : R)
      (p q : MPoint) (m : R) :
  0 < wavelength ->
  steepness <> 0 ->
  vector_length (mkMFloatVector dx dy 0) <> 0 ->
  let d := normal (mkMFloatVector dx dy 0) in
  0 < Rabs ((vx d * px q + vy d * pz q) - (vx d * px p + vy d * pz p))
    < wavelength ->
  gerstnerWave (dx, dy, steepness) wavelength q m
  <> gerstnerWave (dx, dy, steepness) wavelength p m.
Proof.
  intros Hw Hst HL. cbv zeta. intros Hshift.
  pose proof (normal_direction_unit dx dy HL) as HU. cbv zeta in HU.
  pose proof (wavenumber_pos wavelength Hw) as Hk.
  rewrite !gerstnerWave_evaluateWave by assumption.
  unfold evaluateWave.
  set (d := normal (mkMFloatVector dx dy 0)) in *.
  set (k := 2 * PI / wavelength) in *.
  set (c := sqrt (9.8 / k)).
  set (a := steepness / k).
  set (fq := k * (vx d * px q + vy d * pz q - c * m)).
  set (fp := k * (vx d * px p + vy d * pz p - c * m)).
  intros H. injection H as Hx Hy Hz.
  assert (Ha : a <> 0).
  { unfold a, Rdiv. apply Rmult_integral_contrapositive_currified;
      [exact Hst | apply Rinv_neq_0_compat; lra]. }
  assert (Hsin : sin fq = sin fp)
    by (apply (Rmult_eq_reg_l a); assumption).
  assert (Hcos : cos fq = cos fp).
  { apply (Rmult_eq_reg_l a); [ | exact Ha ].
    replace (a * cos fq)
      with (vx d * (vx d * a * cos fq) + vy d * (vy d * a * cos fq)
            + (1 - (vx d * vx d + vy d * vy d)) * (a * cos fq)) by ring.
    rewrite Hx, Hz.
    replace (1 - (vx d * vx d + vy d * vy d)) with 0 by lra.
    replace (vx d * (vx d * a * cos fp) + vy d * (vy d * a * cos fp)
             + 0 * (a * cos fq))
      with ((vx d * vx d + vy d * vy d) * (a * cos fp)) by ring.
    rewrite HU. ring. }
  apply (cos_one_far (fq - fp)).
  - replace (fq - fp)
      with (k * ((vx d * px q + vy d * pz q)
                 - (vx d * px p + vy d * pz p)))
      by (unfold fq, fp; ring).
    rewrite Rabs_mult, (Rabs_right k) by lra.
    set (s := Rabs ((vx d * px q + vy d * pz q)
                    - (vx d * px p + vy d * pz p))) in *.
    assert (Hkw : k * wavelength = 2 * PI) by (unfold k; field; lra).
    split; nra.
  - rewrite cos_minus, Hsin, Hcos.
    pose proof (sin2_cos2 fp) as HT. unfold Rsqr in HT. lra.
Qed.

(** C8 as stated fails: wave A = (1, 0, 1) moves the origin along x by a
    non-zero amount, and wave B = (0, 1, 1), whose direction is along
    the other axis, evaluates the same at the displaced point and at the
    origin. *)
Lemma displaced_point_same_evaluation :
  exists dA,
    gerstnerWave (1, 0, 1) 1 origin 0 = Return dA
    /\ dA <> mkMPoint 0 0 0
    /\ gerstnerWave (0, 1, 1) 1 (accumulate origin dA 1) 0
       = gerstnerWave (0, 1, 1) 1 origin 0.
Proof.
  exists (mkMPoint (/ (2 * PI)) 0 0). split; [ | split ].
  - rewrite gerstnerWave_evaluateWave by lra. rewrite wave_x_at_origin.
    reflexivity.
  - intros H. injection H as H. pose proof amplitude_pos. lra.
  - apply gerstnerWave_projection. cbn [idx0 idx1 fst snd].
    rewrite normal_y_axis. cbn. ring.
Qed.

(** C8, as the code has it: wave B evaluated at the point displaced by
    wave A differs from wave B evaluated at the original point whenever
    B has a positive wavelength, a steepness that is not zero and a
    direction that is not zero, and the displacement shifts the
    projection of the point on the direction of B by an amount that is
    not zero and is less than the wavelength of B; it equals it whenever
    the displacement leaves that projection unchanged, also when the
    displacement is not zero; and the two evaluations do differ in the
    case A = B = (1, 0, 1) of wavelength 1 at the origin with movement 0
    and envelope 1, where the steepness of A is positive. *)
Theorem composition_order (waveB : float3) (wavelengthB : R)
        (p dA : MPoint) (envelope m : R) :
  (let d := normal (mkMFloatVector (idx0 waveB) (idx1 waveB) 0) in
   vx d * (px dA * envelope) + vy d * (pz dA * envelope) = 0 ->
   gerstnerWave waveB wavelengthB (accumulate p dA envelope) m
   = gerstnerWave waveB wavelengthB p m)
  /\ (exists d,
        gerstnerWave (1, 0, 1) 1 origin 0 = Return d
        /\ gerstnerWave (1, 0, 1) 1 (accumulate origin d 1) 0
           <> gerstnerWave (1, 0, 1) 1 origin 0)
  /\ (0 < wavelengthB ->
      idx2 waveB <> 0 ->
      vector_length (mkMFloatVector (idx0 waveB) (idx1 waveB) 0) <> 0 ->
      let d := normal (mkMFloatVector (idx0 waveB) (idx1 waveB) 0) in
      0 < Rabs (vx d * (px dA * envelope) + vy d * (pz dA * envelope))
        < wavelengthB ->
      gerstnerWave waveB wavelengthB (accumulate p dA envelope) m
      <> gerstnerWave waveB wavelengthB p m).
Proof.
  split; [ | split ].
  - cbv zeta. intros H. apply gerstnerWave_projection. cbv zeta.
    unfold accumulate. cbn [px pz]. lra.
  - exists (mkMPoint (/ (2 * PI)) 0 0). split.
    + rewrite gerstnerWave_evaluateWave by lra. rewrite wave_x_at_origin.
      reflexivity.
    + replace (accumulate origin (mkMPoint (/ (2 * PI)) 0 0) 1)
        with (mkMPoint (/ (2 * PI)) 0 0)
        by (unfold accumulate, origin; cbn; f_equal; ring).
      rewrite !gerstnerWave_evaluateWave by lra.
      rewrite wave_x_at_origin, wave_x_at_displaced.
      intros H. injection H as _ H.
      pose proof amplitude_pos. pose proof sin_1_pos. nra.
  - destruct waveB as [[dx dy] steepness]. cbn [idx0 idx1 idx2 fst snd].
    intros Hw Hst HL. cbv zeta. intros Hshift.
    apply shifted_wave_differs; try assumption. cbv zeta.
    unfold accumulate. cbn [px pz].
    match goal with
    | |- 0 < Rabs ?e < _ =>
        replace e
          with (vx (normal (mkMFloatVector dx dy 0)) * (px dA * envelope)
                + vy (normal (mkMFloatVector dx dy 0)) * (pz dA * envelope))
          by ring
    end.
    exact Hshift.
Qed.

Lemma amplitude_below_1 : / (2 * PI) < 1.
Proof.
  pose proof amplitude_pos as Hp. pose proof PI2_1 as H1.
  assert (E : / (2 * PI) * (2 * PI) = 1)
    by (apply Rinv_l; pose proof PI_neq0; lra).
  nra.
Qed.

Lemma composition_order_witness :
  gerstnerWave (0, 1, 1) 1
               (accumulate origin (mkMPoint (/ (2 * PI)) 0 0) 1) 0
  = gerstnerWave (0, 1, 1) 1 origin 0
  /\ gerstnerWave (1, 0, 1) 1
                  (accumulate origin (mkMPoint (/ (2 * PI)) 0 0) 1) 0
     <> gerstnerWave (1, 0, 1) 1 origin 0.
Proof.
  split.
  - apply (proj1 (composition_order (0, 1, 1) 1 origin
                    (mkMPoint (/ (2 * PI)) 0 0) 1 0)).
    cbn [idx0 idx1 fst snd]. rewrite normal_y_axis. cbn. ring.
  - apply (proj2 (proj2 (composition_order (1, 0, 1) 1 origin
                           (mkMPoint (/ (2 * PI)) 0 0) 1 0)));
      cbn [idx0 idx1 idx2 fst snd].
    + lra.
    + lra.
    + unfold vector_length. cbn [vx vy vz].
      replace (1 * 1 + 0 * 0 + 0 * 0) with 1 by ring. rewrite sqrt_1. lra.
    + rewrite normal_x_axis. cbn [vx vy px pz].
      replace (1 * (/ (2 * PI) * 1) + 0 * (0 * 1)) with (/ (2 * PI))
        by ring.
      pose proof amplitude_pos. pose proof amplitude_below_1.
      rewrite Rabs_right by lra. lra.
Defined.

(** * More on the deformer *)

(** ** The pass over a mesh with positive wavelengths *)

(** With positive wavelengths the loop body returns on every point. *)
Lemma deformPoint_valid (db : DataBlock) (p : MPoint) :
  valid db ->
  let A := (waveA_DirStpVal db, waveA_WavelengthVal db) in
  let B := (waveB_DirStpVal db, waveB_WavelengthVal db) in
  let C := (waveC_DirStpVal db, waveC_WavelengthVal db) in
  let p1 := accumulate p (wave_at db A p) (envelopeVal db) in
  let p2 := accumulate p1 (wave_at db B p1) (envelopeVal db) in
  deformPoint db p
  = (Return tt, accumulate p2 (wave_at db C p2) (envelopeVal db)).
Proof.
  intros (HA & HB & HC). cbv zeta. unfold deformPoint, seq.
  pose proof (gerstnerWave_wave_at db
                (waveA_DirStpVal db, waveA_WavelengthVal db) p HA) as EA.
  cbn [fst snd] in EA. rewrite (addWave_returns _ _ _ _ _ _ EA).
  match goal with
  | |- context [addWave _ (waveB_WavelengthVal db) _ _ ?q] =>
      pose proof (gerstnerWave_wave_at db
                    (waveB_DirStpVal db, waveB_WavelengthVal db) q HB) as EB
  end.
  cbn [fst snd] in EB. rewrite (addWave_returns _ _ _ _ _ _ EB).
  match goal with
  | |- addWave _ _ _ _ ?q = _ =>
      pose proof (gerstnerWave_wave_at db
                    (waveC_DirStpVal db, waveC_WavelengthVal db) q HC) as EC
  end.
  cbn [fst snd] in EC. rewrite (addWave_returns _ _ _ _ _ _ EC).
  reflexivity.
Qed.

Lemma deformPoint_valid_returns (db : DataBlock) (p : MPoint) :
  valid db -> deformPoint db p = (Return tt, snd (deformPoint db p)).
Proof.
  intros V. rewrite (deformPoint_valid db p V). reflexivity.
Qed.

Lemma deform_loop_valid (db : DataBlock) (geoIterator : list MPoint) :
  valid db ->
  forall acc,
    deform_loop db geoIterator acc
    = Done (acc ++ map (fun p => snd (deformPoint db p)) geoIterator).
Proof.
  intros V. induction geoIterator as [ | p rest IH]; intros acc.
  - cbn. rewrite app_nil_r. reflexivity.
  - cbn [deform_loop map]. rewrite (deformPoint_valid_returns db p V).
    rewrite IH, <- app_assoc. reflexivity.
Qed.

Lemma deform_valid (db : DataBlock) (geometry : list MPoint) :
  valid db ->
  deform db geometry
  = (Return tt, map (fun p => snd (deformPoint db p)) geometry).
Proof.
  intros V. unfold deform. rewrite (deform_loop_valid db geometry V []).
  reflexivity.
Qed.

(** X1: with three positive wavelengths [deform] never raises; it writes
    one point per point of the mesh, in the order of the iterator, each
    the outcome of the three waves on that point alone. *)
Theorem deform_is_pointwise (db : DataBlock) (geometry : list MPoint) :
  valid db ->
  deform db geometry
  = (Return tt, map (fun p => snd (deformPoint db p)) geometry)
  /\ List.length (snd (deform db geometry)) = List.length geometry
  /\ forall (i : nat) (p : MPoint),
       nth_error geometry i = Some p ->
       nth_error (snd (deform db geometry)) i
       = Some (snd (deformPoint db p)).
Proof.
  intros V. pose proof (deform_valid db geometry V) as E.
  split; [exact E | ]. rewrite E. cbn [snd]. split.
  - apply length_map.
  - intros i p Hp. rewrite nth_error_map, Hp. reflexivity.
Qed.

Lemma deform_is_pointwise_witness :
  deform three_waves [origin; mkMPoint 1 2 3]
  = (Return tt,
     map (fun p => snd (deformPoint three_waves p))
         [origin; mkMPoint 1 2 3]).
Proof.
  apply (deform_is_pointwise three_waves [origin; mkMPoint 1 2 3]).
  unfold valid, three_waves; cbn; repeat split; lra.
Defined.

(** ** Waves that leave the mesh alone *)

Lemma accumulate_zero_displacement (p : MPoint) (e : R) :
  accumulate p (mkMPoint 0 0 0) e = p.
Proof.
  destruct p as [x y z]. unfold accumulate. cbn [px py pz].
  f_equal; ring.
Qed.

Lemma accumulate_zero_weight (p d : MPoint) : accumulate p d 0 = p.
Proof.
  destruct p as [x y z]. unfold accumulate. cbn [px py pz].
  f_equal; ring.
Qed.

Lemma evaluateWave_zero_steepness (dx dy wavelength : R) (p : MPoint)
      (m : R) :
  evaluateWave dx dy 0 wavelength p m = mkMPoint 0 0 0.
Proof.
  unfold evaluateWave.
  replace (0 / (2 * PI / wavelength)) with 0 by (unfold Rdiv; ring).
  f_equal; ring.
Qed.

Lemma deform_fixes_mesh (db : DataBlock) (geometry : list MPoint) :
  valid db ->
  (forall p, snd (deformPoint db p) = p) ->
  deform db geometry = (Return tt, geometry).
Proof.
  intros V Hfix. rewrite (deform_valid db geometry V). f_equal.
  rewrite (map_ext _ (fun p => p)) by exact Hfix. apply map_id.
Qed.

(** X2: with positive wavelengths and the steepness of the three waves at
    zero, [deform] returns and leaves every point where it was, whatever
    the directions, the movement and the envelope. *)
Theorem zero_steepness_leaves_mesh (db : DataBlock)
        (geometry : list MPoint) :
  valid db ->
  idx2 (waveA_DirStpVal db) = 0 ->
  idx2 (waveB_DirStpVal db) = 0 ->
  idx2 (waveC_DirStpVal db) = 0 ->
  deform db geometry = (Return tt, geometry).
Proof.
  intros V SA SB SC. apply deform_fixes_mesh; [exact V | ].
  intros p. rewrite (deformPoint_valid db p V). cbn [snd].
  unfold wave_at. cbn [fst snd]. rewrite SA, SB, SC.
  rewrite !evaluateWave_zero_steepness, !accumulate_zero_displacement.
  reflexivity.
Qed.

Lemma zero_steepness_leaves_mesh_witness :
  deform (mkDataBlock 1 7 (1, 0, 0) 1 (0, 1, 0) 2 (1, 1, 0) 3)
         [origin; mkMPoint 1 2 3]
  = (Return tt, [origin; mkMPoint 1 2 3]).
Proof.
  apply zero_steepness_leaves_mesh;
    [unfold valid; cbn; repeat split; lra | reflexivity ..].
Defined.

(** X3: with positive wavelengths and the envelope at zero, [deform]
    returns and leaves every point where it was. *)
Theorem zero_envelope_leaves_mesh (db : DataBlock)
        (geometry : list MPoint) :
  valid db ->
  envelopeVal db = 0 ->
  deform db geometry = (Return tt, geometry).
Proof.
  intros V E. apply deform_fixes_mesh; [exact V | ].
  intros p. rewrite (deformPoint_valid db p V). cbn [snd].
  rewrite E, !accumulate_zero_weight. reflexivity.
Qed.

Lemma zero_envelope_leaves_mesh_witness :
  deform (mkDataBlock 0 7 (1, 0, 1) 1 (0, 1, 1) 2 (1, 1, 1) 3)
         [origin; mkMPoint 1 2 3]
  = (Return tt, [origin; mkMPoint 1 2 3]).
Proof.
  apply zero_envelope_leaves_mesh;
    [unfold valid; cbn; repeat split; lra | reflexivity].
Defined.

(** ** The shape of one wave *)

(** X4: a wave of positive wavelength and of a direction that is not zero
    moves a point by a vector of length steepness * wavelength / (2 pi),
    wherever the point is and whatever the movement value. *)
Theorem displacement_length (dx dy steepness wavelength : R)
        (p : MPoint) (m : R) :
  0 < wavelength ->
  vector_length (mkMFloatVector dx dy 0) <> 0 ->
  exists d,
    gerstnerWave (dx, dy, steepness) wavelength p m = Return d
    /\ px d * px d + py d * py d + pz d * pz d
       = (steepness * wavelength / (2 * PI))
         * (steepness * wavelength / (2 * PI)).
Proof.
  intros Hw HL. eexists. split.
  - apply gerstnerWave_evaluateWave. assumption.
  - pose proof (normal_direction_unit dx dy HL) as HU. cbv zeta in HU.
    unfold evaluateWave. cbn [px py pz].
    set (d := normal (mkMFloatVector dx dy 0)) in *.
    set (f := 2 * PI / wavelength
              * (vx d * px p + vy d * pz p
                 - sqrt (9.8 / (2 * PI / wavelength)) * m)).
    pose proof (sin2_cos2 f) as HT. unfold Rsqr in HT.
    pose proof PI_neq0 as HPI.
    replace (steepness / (2 * PI / wavelength))
      with (steepness * wavelength / (2 * PI)) by (field; lra).
    set (a := steepness * wavelength / (2 * PI)).
    replace (vx d * a * cos f * (vx d * a * cos f)
             + a * sin f * (a * sin f)
             + vy d * a * cos f * (vy d * a * cos f))
      with (a * a * ((vx d * vx d + vy d * vy d) * (cos f * cos f)
                     + sin f * sin f)) by ring.
    rewrite HU. replace (1 * (cos f * cos f) + sin f * sin f) with 1 by lra.
    ring.
Qed.

Lemma displacement_length_witness :
  exists d,
    gerstnerWave (1, 0, 1) 1 (mkMPoint 3 4 5) 2 = Return d
    /\ px d * px d + py d * py d + pz d * pz d
       = (1 * 1 / (2 * PI)) * (1 * 1 / (2 * PI)).
Proof.
  apply (displacement_length 1 0 1 1 (mkMPoint 3 4 5) 2); [lra | ].
  unfold vector_length. cbn [vx vy vz].
  replace (1 * 1 + 0 * 0 + 0 * 0) with 1 by ring. rewrite sqrt_1. lra.
Defined.

(** X5: a wave of positive wavelength repeats in space and in the
    movement value: a point moved by one wavelength along the normalised
    direction, and a movement value advanced by wavelength / c with
    c = sqrt (9.8 / k), both give the displacement of the point and the
    movement value one started from. *)
Theorem wave_periods (dx dy steepness wavelength : R) (x y z m : R) :
  0 < wavelength ->
  vector_length (mkMFloatVector dx dy 0) <> 0 ->
  let d := normal (mkMFloatVector dx dy 0) in
  let c := sqrt (9.8 / (2 * PI / wavelength)) in
  gerstnerWave (dx, dy, steepness) wavelength
               (mkMPoint (x + wavelength * vx d) y (z + wavelength * vy d)) m
  = gerstnerWave (dx, dy, steepness) wavelength (mkMPoint x y z) m
  /\ gerstnerWave (dx, dy, steepness) wavelength (mkMPoint x y z)
                  (m + wavelength / c)
     = gerstnerWave (dx, dy, steepness) wavelength (mkMPoint x y z) m.
Proof.
  intros Hw HL. cbv zeta.
  pose proof (normal_direction_unit dx dy HL) as HU. cbv zeta in HU.
  pose proof PI_neq0 as HPI.
  pose proof (wavenumber_pos wavelength Hw) as Hk.
  assert (Hc : 0 < sqrt (9.8 / (2 * PI / wavelength)))
    by (apply sqrt_lt_R0; apply gravity_over_wavenumber_pos; assumption).
  rewrite !gerstnerWave_evaluateWave by assumption.
  unfold evaluateWave. cbn [px py pz].
  set (d := normal (mkMFloatVector dx dy 0)) in *.
  set (c := sqrt (9.8 / (2 * PI / wavelength))) in *.
  set (f := 2 * PI / wavelength * (vx d * x + vy d * z - c * m)).
  split.
  - replace (2 * PI / wavelength
             * (vx d * (x + wavelength * vx d)
                + vy d * (z + wavelength * vy d) - c * m))
      with (f + 2 * PI * (vx d * vx d + vy d * vy d))
      by (unfold f; field; lra).
    rewrite HU, Rmult_1_r.
    rewrite cos_plus, sin_plus, cos_2PI, sin_2PI.
    do 2 f_equal; ring.
  - replace (2 * PI / wavelength
             * (vx d * x + vy d * z - c * (m + wavelength / c)))
      with (f - 2 * PI) by (unfold f; field; lra).
    rewrite cos_minus, sin_minus, cos_2PI, sin_2PI.
    do 2 f_equal; ring.
Qed.

Lemma wave_periods_witness :
  gerstnerWave (1, 0, 1) 2
    (mkMPoint (3 + 2 * vx (normal (mkMFloatVector 1 0 0))) 4
              (5 + 2 * vy (normal (mkMFloatVector 1 0 0)))) 7
  = gerstnerWave (1, 0, 1) 2 (mkMPoint 3 4 5) 7.
Proof.
  apply (wave_periods 1 0 1 2 3 4 5 7); [lra | ].
  unfold vector_length. cbn [vx vy vz].
  replace (1 * 1 + 0 * 0 + 0 * 0) with 1 by ring. rewrite sqrt_1. lra.
Defined.

(** ** Directions of any length *)

Lemma vector_length_scale (s x y z : R) :
  0 <= s ->
  vector_length (mkMFloatVector (s * x) (s * y) (s * z))
  = s * vector_length (mkMFloatVector x y z).
Proof.
  intros Hs. unfold vector_length. cbn [vx vy vz].
  replace (s * x * (s * x) + s * y * (s * y) + s * z * (s * z))
    with (s * s * (x * x + y * y + z * z)) by ring.
  rewrite sqrt_mult by nra. rewrite sqrt_square by assumption.
  reflexivity.
Qed.

Lemma vector_length_zero (x y z : R) :
  vector_length (mkMFloatVector x y z) = 0 -> x = 0 /\ y = 0 /\ z = 0.
Proof.
  unfold vector_length. cbn [vx vy vz]. intros H.
  apply sqrt_eq_0 in H; [ | nra ]. repeat split; nra.
Qed.

Lemma normal_scale (s x y z : R) :
  0 < s ->
  normal (mkMFloatVector (s * x) (s * y) (s * z))
  = normal (mkMFloatVector x y z).
Proof.
  intros Hs. unfold normal. rewrite vector_length_scale by lra.
  set (L := vector_length (mkMFloatVector x y z)).
  destruct (Req_EM_T L 0) as [E | N].
  - destruct (vector_length_zero x y z E) as (-> & -> & ->).
    destruct (Req_EM_T (s * L) 0) as [_ | N']; [ | nra ].
    f_equal; ring.
  - destruct (Req_EM_T (s * L) 0) as [E' | _]; [nra | ].
    cbn [vx vy vz]. f_equal; field; split; lra.
Qed.

(** X6: only the direction of (dx, dy) counts, not its length: a wave
    whose two direction components are both multiplied by one positive
    factor gives the same result. *)
Theorem direction_length_is_ignored (s dx dy steepness wavelength : R)
        (p : MPoint) (m : R) :
  0 < s ->
  gerstnerWave (s * dx, s * dy, steepness) wavelength p m
  = gerstnerWave (dx, dy, steepness) wavelength p m.
Proof.
  intros Hs. unfold gerstnerWave. cbn [idx0 idx1 idx2 fst snd].
  replace (mkMFloatVector (s * dx) (s * dy) 0)
    with (mkMFloatVector (s * dx) (s * dy) (s * 0))
    by (f_equal; ring).
  rewrite (normal_scale s dx dy 0 Hs). reflexivity.
Qed.

Lemma direction_length_is_ignored_witness :
  gerstnerWave (10 * 0.3, 10 * 0.4, 1) 2 (mkMPoint 3 4 5) 7
  = gerstnerWave (0.3, 0.4, 1) 2 (mkMPoint 3 4 5) 7.
Proof.
  apply (direction_length_is_ignored 10 0.3 0.4 1 2 (mkMPoint 3 4 5) 7).
  lra.
Defined.

(** ** A mesh moved up or down *)

Lemma gerstnerWave_raised (wave : float3) (wavelength h : R) (p : MPoint)
      (m : R) :
  gerstnerWave wave wavelength (raised h p) m
  = gerstnerWave wave wavelength p m.
Proof. reflexivity. Qed.

Lemma accumulate_raised (h : R) (p d : MPoint) (e : R) :
  accumulate (raised h p) d e = raised h (accumulate p d e).
Proof.
  unfold accumulate, raised. cbn [px py pz]. f_equal; ring.
Qed.

Lemma addWave_raised (wave : float3) (wavelength m e h : R) (p : MPoint) :
  addWave wave wavelength m e (raised h p)
  = (fst (addWave wave wavelength m e p),
     raised h (snd (addWave wave wavelength m e p))).
Proof.
  destruct (addWave_cases wave wavelength m e p)
    as [(d & Ed & Ep) | (x & Ex & Ep)]; rewrite Ep; cbn [fst snd].
  - rewrite <- accumulate_raised. apply addWave_returns.
    rewrite gerstnerWave_raised. exact Ed.
  - apply addWave_raises. rewrite gerstnerWave_raised. exact Ex.
Qed.

Lemma deformPoint_raised (db : DataBlock) (h : R) (p : MPoint) :
  deformPoint db (raised h p)
  = (fst (deformPoint db p), raised h (snd (deformPoint db p))).
Proof.
  unfold deformPoint, seq. rewrite addWave_raised.
  destruct (addWave (waveA_DirStpVal db) (waveA_WavelengthVal db)
                    (movementVal db) (envelopeVal db) p)
    as [[[] | x] p1]; cbn [fst snd]; [ | reflexivity ].
  rewrite addWave_raised.
  destruct (addWave (waveB_DirStpVal db) (waveB_WavelengthVal db)
                    (movementVal db) (envelopeVal db) p1)
    as [[[] | x] p2]; cbn [fst snd]; [ | reflexivity ].
  apply addWave_raised.
Qed.

Lemma deform_loop_raised (db : DataBlock) (h : R)
      (geoIterator : list MPoint) :
  forall acc,
    deform_loop db (map (raised h) geoIterator) (map (raised h) acc)
    = match deform_loop db geoIterator acc with
      | Done out => Done (map (raised h) out)
      | Aborted e out q => Aborted e (map (raised h) out) (raised h q)
      end.
Proof.
  induction geoIterator as [ | p rest IH]; intros acc.
  - reflexivity.
  - cbn [map deform_loop]. rewrite deformPoint_raised.
    destruct (deformPoint db p) as [[[] | x] q]; cbn [fst snd].
    + rewrite <- IH. rewrite map_app. reflexivity.
    + reflexivity.
Qed.

(** X7: the height of the mesh passes through [deform] untouched: on a
    mesh moved up by [h] it ends the same way (it returns, or raises the
    same exception) and every point it writes is the point it writes for
    the mesh one started from, moved up by [h]. *)
Theorem deform_commutes_with_raising (db : DataBlock) (h : R)
        (geometry : list MPoint) :
  deform db (map (raised h) geometry)
  = (fst (deform db geometry), map (raised h) (snd (deform db geometry))).
Proof.
  unfold deform.
  change (@nil MPoint) with (map (raised h) []) at 1.
  rewrite deform_loop_raised.
  destruct (deform_loop db geometry []) as [out | e out q]; reflexivity.
Qed.

(** ** Attribute values within their bounds *)

Lemma in_range_single (a : NumericAttribute) (lo hi v : R) :
  minimum a = [lo] -> maximum a = [hi] ->
  in_range a [v] -> lo <= v <= hi.
Proof.
  intros Hmin Hmax [Hl Hh]. rewrite Hmin in Hl. rewrite Hmax in Hh.
  inversion Hl; subst. inversion Hh; subst. split; assumption.
Qed.

Lemma accepted_valid (db : DataBlock) : accepted db -> valid db.
Proof.
  intros (_ & _ & HA & _ & HB & _ & HC).
  pose proof (in_range_single mObj_inWaveA_Wavelength 1 100 _
                eq_refl eq_refl HA).
  pose proof (in_range_single mObj_inWaveB_Wavelength 1 100 _
                eq_refl eq_refl HB).
  pose proof (in_range_single mObj_inWaveC_Wavelength 1 100 _
                eq_refl eq_refl HC).
  unfold valid. lra.
Qed.

(** X8: the bounds [nodeInitializer] sets keep [deform] from raising:
    with every custom attribute within its minimum and maximum the three
    wavelengths are at least 1 and [deform] returns on every mesh, with
    one point written per point; and a node whose custom attributes are
    all at their defaults is within the bounds and leaves every point
    where it was, at any envelope. *)
Theorem attribute_bounds_keep_deform_total :
  (forall db geometry,
      accepted db ->
      deform db geometry
      = (Return tt, map (fun p => snd (deformPoint db p)) geometry))
  /\ (forall envelope geometry,
        accepted (default_block envelope)
        /\ deform (default_block envelope) geometry
           = (Return tt, geometry)).
Proof.
  split.
  - intros db geometry Hacc. apply deform_valid.
    apply accepted_valid. assumption.
  - intros envelope geometry.
    assert (Hacc : accepted (default_block envelope)).
    { unfold accepted, in_range, default_block, components.
      cbn [minimum maximum defaultValue movementVal waveA_DirStpVal
           waveA_WavelengthVal waveB_DirStpVal waveB_WavelengthVal
           waveC_DirStpVal waveC_WavelengthVal idx0 idx1 idx2 fst snd
           mObj_inMovement mObj_inWaveA_DirSteep mObj_inWaveA_Wavelength
           mObj_inWaveB_DirSteep mObj_inWaveB_Wavelength
           mObj_inWaveC_DirSteep mObj_inWaveC_Wavelength].
      repeat split;
        repeat (apply Forall2_cons || apply Forall2_nil); lra. }
    split; [exact Hacc | ].
    apply deform_fixes_mesh; [apply accepted_valid; exact Hacc | ].
    intros p. rewrite (deformPoint_valid _ p (accepted_valid _ Hacc)).
    cbn [snd]. unfold wave_at, default_block.
    cbn [waveA_DirStpVal waveB_DirStpVal waveC_DirStpVal idx2 fst snd
         defaultValue mObj_inWaveA_DirSteep mObj_inWaveB_DirSteep
         mObj_inWaveC_DirSteep].
    rewrite !evaluateWave_zero_steepness, !accumulate_zero_displacement.
    reflexivity.
Qed.

Lemma attribute_bounds_keep_deform_total_witness :
  deform (mkDataBlock 0.5 3 (1, 0, 2) 10 (0, 1, 1) 20 (1, 1, 0.5) 100)
         [origin]
  = (Return tt,
     map (fun p =>
            snd (deformPoint
                   (mkDataBlock 0.5 3 (1, 0, 2) 10 (0, 1, 1) 20
                                (1, 1, 0.5) 100) p))
         [origin]).
Proof.
  apply (proj1 attribute_bounds_keep_deform_total).
  unfold accepted, in_range, components.
  cbn [minimum maximum movementVal waveA_DirStpVal
       waveA_WavelengthVal waveB_DirStpVal waveB_WavelengthVal
       waveC_DirStpVal waveC_WavelengthVal idx0 idx1 idx2 fst snd
       mObj_inMovement mObj_inWaveA_DirSteep mObj_inWaveA_Wavelength
       mObj_inWaveB_DirSteep mObj_inWaveB_Wavelength
       mObj_inWaveC_DirSteep mObj_inWaveC_Wavelength].
  repeat split;
    repeat (apply Forall2_cons || apply Forall2_nil); lra.
Defined.

End GerstnerProofs.

(** * Properties of the tweenMachine command *)

Module TweenProofs.

Import Tween.

(** ** Keys by index *)

Lemma key_at_nth (c : AnimCurve) (i : Z) (k : Key) :
  key_at c i = Return k ->
  (0 <= i)%Z /\ nth_error (keys c) (Z.to_nat i) = Some k.
Proof.
  unfold key_at. destruct (Z.ltb_spec i 0) as [Hneg | Hpos];
    [discriminate | ].
  destruct (nth_error (keys c) (Z.to_nat i)) as [k0 | ];
    [ | discriminate ].
  intros H. injection H as ->. split; [assumption | reflexivity].
Qed.

Lemma key_at_of_nth (c : AnimCurve) (n : nat) (k : Key) :
  nth_error (keys c) n = Some k -> key_at c (Z.of_nat n) = Return k.
Proof.
  intros H. unfold key_at.
  destruct (Z.ltb_spec (Z.of_nat n) 0) as [Hneg | _]; [lia | ].
  rewrite Nat2Z.id, H. reflexivity.
Qed.

Lemma key_at_range (c : AnimCurve) (i : Z) (k : Key) :
  key_at c i = Return k -> (0 <= i < numKeys c)%Z.
Proof.
  intros H. destruct (key_at_nth _ _ _ H) as [Hi Hn].
  assert (Hlt : (Z.to_nat i < List.length (keys c))%nat)
    by (apply nth_error_Some; rewrite Hn; discriminate).
  unfold numKeys. lia.
Qed.

Lemma key_at_negative (c : AnimCurve) (i : Z) :
  (i < 0)%Z -> key_at c i = Raise OverflowError.
Proof.
  intros H. unfold key_at.
  destruct (Z.ltb_spec i 0); [reflexivity | lia].
Qed.

Lemma key_at_beyond (c : AnimCurve) (i : Z) :
  (numKeys c <= i)%Z -> key_at c i = Raise RuntimeError.
Proof.
  intros H. unfold key_at, numKeys in *.
  destruct (Z.ltb_spec i 0); [lia | ].
  destruct (nth_error (keys c) (Z.to_nat i)) eqn:E; [ | reflexivity].
  assert ((Z.to_nat i < List.length (keys c))%nat)
    by (apply nth_error_Some; rewrite E; discriminate).
  lia.
Qed.

Lemma key_at_in (c : AnimCurve) (i : Z) (k : Key) :
  key_at c i = Return k -> In k (keys c).
Proof.
  intros H. destruct (key_at_nth _ _ _ H) as [_ Hn].
  eapply nth_error_In. eassumption.
Qed.

Lemma in_key_at (c : AnimCurve) (k : Key) :
  In k (keys c) -> exists i, key_at c i = Return k.
Proof.
  intros H. destruct (In_nth_error _ _ H) as [n Hn].
  exists (Z.of_nat n). apply key_at_of_nth. assumption.
Qed.

(** ** Time order *)

Lemma sorted_nth (ks : list Key) :
  StronglySorted (fun a b => ktime a < ktime b) ks ->
  forall a b ka kb,
    nth_error ks a = Some ka -> nth_error ks b = Some kb ->
    (a < b)%nat -> ktime ka < ktime kb.
Proof.
  induction 1 as [ | k0 rest Hs IH Hall]; intros a b ka kb Ha Hb Hab.
  - destruct a; discriminate.
  - destruct b as [ | b']; [lia | ]. cbn in Hb.
    destruct a as [ | a'].
    + cbn in Ha. injection Ha as <-.
      rewrite Forall_forall in Hall. apply Hall.
      eapply nth_error_In. eassumption.
    + cbn in Ha. apply (IH a' b'); [assumption | assumption | lia].
Qed.

Lemma sorted_key_at (c : AnimCurve) (i j : Z) (ki kj : Key) :
  sorted c ->
  key_at c i = Return ki -> key_at c j = Return kj ->
  (i < j)%Z -> ktime ki < ktime kj.
Proof.
  intros Hs Hi Hj Hij.
  destruct (key_at_nth _ _ _ Hi) as [Hi0 Hni].
  destruct (key_at_nth _ _ _ Hj) as [Hj0 Hnj].
  apply (sorted_nth _ Hs (Z.to_nat i) (Z.to_nat j)); [assumption .. | lia].
Qed.

(** In a curve in time order a time names at most one key. *)
Lemma sorted_time_index (c : AnimCurve) (i j : Z) (ki kj : Key) :
  sorted c ->
  key_at c i = Return ki -> key_at c j = Return kj ->
  ktime ki = ktime kj -> i = j.
Proof.
  intros Hs Hi Hj Ht.
  destruct (Z.lt_trichotomy i j) as [L | [E | G]]; [ | assumption | ].
  - pose proof (sorted_key_at c i j ki kj Hs Hi Hj L). lra.
  - pose proof (sorted_key_at c j i kj ki Hs Hj Hi G). lra.
Qed.

(** ** The scan is a [findClosest] *)

Lemma scan_closest_least (t : R) (rest : list Key) :
  forall (pre : list Key) (best : Z) (kb : Key),
    nth_error (pre ++ rest) (Z.to_nat best) = Some kb ->
    (0 <= best)%Z ->
    (forall k', In k' pre -> Rabs (ktime kb - t) <= Rabs (ktime k' - t)) ->
    exists k,
      nth_error (pre ++ rest)
                (Z.to_nat (scan_closest t rest (Z.of_nat (List.length pre))
                                        best (Rabs (ktime kb - t))))
      = Some k
      /\ (0 <= scan_closest t rest (Z.of_nat (List.length pre)) best
                            (Rabs (ktime kb - t)))%Z
      /\ forall k', In k' (pre ++ rest) ->
                    Rabs (ktime k - t) <= Rabs (ktime k' - t).
Proof.
  induction rest as [ | k0 rest IH]; intros pre best kb Hb Hb0 Hpre.
  - cbn [scan_closest]. exists kb. rewrite app_nil_r in *. auto.
  - cbn [scan_closest].
    assert (Hlen : (Z.of_nat (List.length pre) + 1)%Z
                   = Z.of_nat (List.length (pre ++ [k0])))
      by (rewrite length_app; cbn; lia).
    assert (Happ : pre ++ k0 :: rest = (pre ++ [k0]) ++ rest)
      by (rewrite <- app_assoc; reflexivity).
    rewrite Hlen, Happ. unfold flt.
    destruct (Rlt_dec (Rabs (ktime k0 - t)) (Rabs (ktime kb - t)))
      as [Hlt | Hge].
    + apply IH.
      * rewrite Nat2Z.id, <- Happ, nth_error_app2 by lia.
        rewrite Nat.sub_diag. reflexivity.
      * lia.
      * intros k' Hin. apply in_app_or in Hin as [Hin | [<- | []]].
        -- specialize (Hpre _ Hin). lra.
        -- lra.
    + apply IH.
      * rewrite <- Happ. assumption.
      * assumption.
      * intros k' Hin. apply in_app_or in Hin as [Hin | [<- | []]].
        -- apply Hpre. assumption.
        -- lra.
Qed.

Lemma first_closest_spec : closest_spec first_closest.
Proof.
  intros c t Hne. unfold first_closest.
  destruct (keys c) as [ | k0 rest] eqn:Ek; [contradiction | ].
  destruct (scan_closest_least t rest [k0] 0 k0) as (k & Hn & H0 & Hmin).
  - reflexivity.
  - lia.
  - intros k' [<- | []]. apply Rle_refl.
  - change (Z.of_nat (List.length [k0])) with 1%Z in *.
    cbn [app] in *. exists k. split.
    + unfold key_at. rewrite Ek.
      destruct (Z.ltb_spec (scan_closest t rest 1 0 (Rabs (ktime k0 - t))) 0);
        [lia | ].
      rewrite Hn. reflexivity.
    + intros i k' Hi. apply Hmin. rewrite <- Ek.
      eapply key_at_in. eassumption.
Qed.

(** ** Lists written by index *)

Lemma nth_error_set_nth {A : Type} (l : list A) :
  forall (n : nat) (x y : A),
    nth_error l n = Some y -> nth_error (set_nth n x l) n = Some x.
Proof.
  induction l as [ | a l IH]; intros n x y H.
  - destruct n; discriminate.
  - destruct n as [ | n']; cbn in *; [reflexivity | eauto].
Qed.

Lemma set_nth_same {A : Type} (l : list A) :
  forall (n : nat) (x : A), nth_error l n = Some x -> set_nth n x l = l.
Proof.
  induction l as [ | a l IH]; intros n x H.
  - destruct n; reflexivity.
  - destruct n as [ | n']; cbn in *.
    + injection H as ->. reflexivity.
    + f_equal. auto.
Qed.

Lemma set_nth_twice {A : Type} (l : list A) :
  forall (n : nat) (x y : A), set_nth n x (set_nth n y l) = set_nth n x l.
Proof.
  induction l as [ | a l IH]; intros n x y.
  - destruct n; reflexivity.
  - destruct n as [ | n']; cbn; [reflexivity | f_equal; auto].
Qed.

(** A key whose time lies between two adjacent keys goes between them. *)
Lemma insert_key_between (k : Key) (ks : list Key) :
  StronglySorted (fun a b => ktime a < ktime b) ks ->
  forall (n : nat) (kp kn : Key),
    nth_error ks n = Some kp -> nth_error ks (S n) = Some kn ->
    ktime kp < ktime k < ktime kn ->
    insert_key k ks = firstn (S n) ks ++ k :: skipn (S n) ks.
Proof.
  induction 1 as [ | k0 rest Hs IH Hall]; intros n kp kn Hp Hn Ht.
  - destruct n; discriminate.
  - destruct n as [ | n'].
    + cbn in Hp. injection Hp as ->.
      destruct rest as [ | k1 rest']; [discriminate | ].
      cbn in Hn. injection Hn as ->. cbn.
      destruct (Rlt_dec (ktime k) (ktime kp)) as [L | _]; [lra | ].
      destruct (Rlt_dec (ktime k) (ktime kn)) as [_ | N]; [ | lra].
      reflexivity.
    + cbn in Hp. change (nth_error rest (S n') = Some kn) in Hn.
      assert (H0 : ktime k0 < ktime kp).
      { rewrite Forall_forall in Hall. apply Hall.
        eapply nth_error_In. eassumption. }
      cbn [insert_key].
      destruct (Rlt_dec (ktime k) (ktime k0)) as [L | _]; [lra | ].
      rewrite (IH n' kp kn Hp Hn Ht). reflexivity.
Qed.

Lemma in_insert_key (k x : Key) (ks : list Key) :
  In x (insert_key k ks) -> x = k \/ In x ks.
Proof.
  induction ks as [ | k0 rest IH]; cbn [insert_key].
  - intros [<- | []]. left. reflexivity.
  - destruct (Rlt_dec (ktime k) (ktime k0)).
    + intros [<- | H]; [left; reflexivity | right; exact H].
    + intros [<- | H]; [right; left; reflexivity | ].
      destruct (IH H) as [-> | Hin]; [left; reflexivity | right; right; exact Hin].
Qed.

(** Adding a key at a time that has no key keeps the time order. *)
Lemma sorted_insert_key (k : Key) (ks : list Key) :
  StronglySorted (fun a b => ktime a < ktime b) ks ->
  (forall k', In k' ks -> ktime k' <> ktime k) ->
  StronglySorted (fun a b => ktime a < ktime b) (insert_key k ks).
Proof.
  induction 1 as [ | k0 rest Hs IH Hall]; intros Hne; cbn [insert_key].
  - constructor; constructor.
  - rewrite Forall_forall in Hall.
    destruct (Rlt_dec (ktime k) (ktime k0)) as [L | N].
    + constructor; [constructor; [assumption | ] | ].
      * apply Forall_forall. assumption.
      * apply Forall_forall. intros x [<- | Hx]; [assumption | ].
        specialize (Hall x Hx). lra.
    + constructor.
      * apply IH. intros k' Hk'. apply Hne. right. assumption.
      * apply Forall_forall. intros x Hx.
        destruct (in_insert_key _ _ _ Hx) as [-> | Hin].
        -- assert (ktime k0 <> ktime k) by (apply Hne; left; reflexivity).
           lra.
        -- apply Hall. assumption.
Qed.

(** The keys around a key put after the first [n] keys of a list. *)
Lemma nth_error_put {A : Type} (x : A) (l : list A) (n : nat) :
  (n <= List.length l)%nat ->
  nth_error (firstn n l ++ x :: skipn n l) n = Some x
  /\ (forall j, (j < n)%nat ->
                nth_error (firstn n l ++ x :: skipn n l) j = nth_error l j)
  /\ (forall j, (n <= j)%nat ->
                nth_error (firstn n l ++ x :: skipn n l) (S j)
                = nth_error l j).
Proof.
  intros Hn.
  assert (Hlen : List.length (firstn n l) = n)
    by (rewrite length_firstn; lia).
  split; [ | split ].
  - rewrite nth_error_app2 by lia. rewrite Hlen, Nat.sub_diag. reflexivity.
  - intros j Hj. rewrite nth_error_app1 by lia.
    rewrite nth_error_firstn.
    destruct (Nat.ltb_spec j n); [reflexivity | lia].
  - intros j Hj. rewrite nth_error_app2 by lia. rewrite Hlen.
    replace (S j - n)%nat with (S (j - n)) by lia. cbn [nth_error].
    rewrite nth_error_skipn. f_equal. lia.
Qed.

(** ** Comparisons *)

Lemma flt_true (a b : R) : a < b -> flt a b = true.
Proof.
  intros H. unfold flt.
  destruct (Rlt_dec a b); [reflexivity | contradiction].
Qed.

Lemma flt_false (a b : R) : ~ a < b -> flt a b = false.
Proof.
  intros H. unfold flt.
  destruct (Rlt_dec a b); [contradiction | reflexivity].
Qed.

Lemma fgt_true (a b : R) : a > b -> fgt a b = true.
Proof.
  intros H. unfold fgt.
  destruct (Rgt_dec a b); [reflexivity | contradiction].
Qed.

Lemma fgt_false (a b : R) : ~ a > b -> fgt a b = false.
Proof.
  intros H. unfold fgt.
  destruct (Rgt_dec a b); [contradiction | reflexivity].
Qed.

Lemma fle_true (a b : R) : a <= b -> fle a b = true.
Proof.
  intros H. unfold fle.
  destruct (Rle_dec a b); [reflexivity | contradiction].
Qed.

Lemma fge_true (a b : R) : a >= b -> fge a b = true.
Proof.
  intros H. unfold fge.
  destruct (Rge_dec a b); [reflexivity | contradiction].
Qed.

(** ** Where the closest key is *)

Section Host.

Variable findClosest : AnimCurve -> R -> Z.
Hypothesis findClosest_closest : closest_spec findClosest.

Lemma keys_nonempty (c : AnimCurve) (i : Z) (k : Key) :
  key_at c i = Return k -> keys c <> [].
Proof.
  intros H E. apply key_at_in in H. rewrite E in H. destruct H.
Qed.

(** Between two adjacent keys the closest key is one of the two. *)
Lemma closest_between (c : AnimCurve) (t : R) (i : Z) (kp kn : Key) :
  sorted c ->
  key_at c i = Return kp -> key_at c (i + 1) = Return kn ->
  ktime kp < t < ktime kn ->
  findClosest c t = i \/ findClosest c t = (i + 1)%Z.
Proof.
  intros Hs Hp Hn [Hlo Hhi].
  destruct (findClosest_closest c t (keys_nonempty _ _ _ Hp))
    as (k & Hk & Hmin).
  pose proof (Hmin _ _ Hp) as Mp. pose proof (Hmin _ _ Hn) as Mn.
  rewrite (Rabs_left (ktime kp - t)) in Mp by lra.
  rewrite (Rabs_right (ktime kn - t)) in Mn by lra.
  destruct (Z_lt_le_dec (findClosest c t) i) as [L | G].
  - pose proof (sorted_key_at c _ _ _ _ Hs Hk Hp L) as Ht.
    rewrite Rabs_left in Mp by lra. lra.
  - destruct (Z_lt_le_dec (i + 1) (findClosest c t)) as [L' | G'].
    + pose proof (sorted_key_at c _ _ _ _ Hs Hn Hk L') as Ht.
      rewrite Rabs_right in Mn by lra. lra.
    + lia.
Qed.

(** A key at the time itself is the closest key. *)
Lemma closest_exact (c : AnimCurve) (i : Z) (ki : Key) :
  sorted c -> key_at c i = Return ki ->
  findClosest c (ktime ki) = i.
Proof.
  intros Hs Hi.
  destruct (findClosest_closest c (ktime ki) (keys_nonempty _ _ _ Hi))
    as (k & Hk & Hmin).
  pose proof (Hmin _ _ Hi) as M.
  replace (ktime ki - ktime ki) with 0 in M by ring.
  rewrite Rabs_R0 in M.
  assert (E : ktime k = ktime ki).
  { pose proof (Rabs_pos (ktime k - ktime ki)) as P.
    assert (Z0 : Rabs (ktime k - ktime ki) = 0) by lra.
    destruct (Req_EM_T (ktime k - ktime ki) 0) as [E0 | N0]; [lra | ].
    apply Rabs_no_R0 in N0. contradiction. }
  apply (sorted_time_index c _ _ k ki); assumption.
Qed.

(** Before the first key the closest key is the first. *)
Lemma closest_before_first (c : AnimCurve) (t : R) (k0 : Key) :
  sorted c -> key_at c 0 = Return k0 -> t < ktime k0 ->
  findClosest c t = 0%Z.
Proof.
  intros Hs H0 Ht.
  destruct (findClosest_closest c t (keys_nonempty _ _ _ H0))
    as (k & Hk & Hmin).
  pose proof (Hmin _ _ H0) as M.
  pose proof (key_at_range _ _ _ Hk) as Hr.
  destruct (Z.eq_dec (findClosest c t) 0) as [E | N]; [assumption | ].
  assert (L : (0 < findClosest c t)%Z) by lia.
  pose proof (sorted_key_at c _ _ _ _ Hs H0 Hk L) as Hlt.
  rewrite !Rabs_right in M by lra. lra.
Qed.

(** After the last key the closest key is the last. *)
Lemma closest_after_last (c : AnimCurve) (t : R) (kl : Key) :
  sorted c -> key_at c (numKeys c - 1) = Return kl -> ktime kl < t ->
  findClosest c t = (numKeys c - 1)%Z.
Proof.
  intros Hs Hl Ht.
  destruct (findClosest_closest c t (keys_nonempty _ _ _ Hl))
    as (k & Hk & Hmin).
  pose proof (Hmin _ _ Hl) as M.
  pose proof (key_at_range _ _ _ Hk) as Hr.
  destruct (Z.eq_dec (findClosest c t) (numKeys c - 1)) as [E | N];
    [assumption | ].
  assert (L : (findClosest c t < numKeys c - 1)%Z) by lia.
  pose proof (sorted_key_at c _ _ _ _ Hs Hk Hl L) as Hlt.
  rewrite !Rabs_left in M by lra. lra.
Qed.

(** ** One curve *)

Lemma time_key (c : AnimCurve) (i : Z) (k : Key) :
  key_at c i = Return k -> time c i = Return (ktime k).
Proof. intros H. unfold time. rewrite H. reflexivity. Qed.

Lemma value_key (c : AnimCurve) (i : Z) (k : Key) :
  key_at c i = Return k -> value c i = Return (kvalue k).
Proof. intros H. unfold value. rewrite H. reflexivity. Qed.

Lemma inTangentType_key (c : AnimCurve) (i : Z) (k : Key) :
  key_at c i = Return k -> inTangentType c i = Return (kinTangentType k).
Proof. intros H. unfold inTangentType. rewrite H. reflexivity. Qed.

Lemma outTangentType_key (c : AnimCurve) (i : Z) (k : Key) :
  key_at c i = Return k ->
  outTangentType c i = Return (koutTangentType k).
Proof. intros H. unfold outTangentType. rewrite H. reflexivity. Qed.

(** No key at the current time, which lies between the adjacent keys
    [kp] and [kn]: the key of the plan is added between them and the
    change is recorded. *)
Lemma addKeyToAnimCurve_insert (self : tweenMachinePlugin) (m : Maya)
      (h : nat) (c : AnimCurve) (t w : R) (i : Z) (kp kn : Key) :
  nth_error (curves m) h = Some c ->
  isTimeInput c = true ->
  sorted c ->
  key_at c i = Return kp -> key_at c (i + 1) = Return kn ->
  ktime kp < t < ktime kn ->
  weight self = Some w ->
  addKeyToAnimCurve findClosest self t h m
  = (Return Next,
     add_change (h, t)
       (set_curve h
          (mkAnimCurve true
             (insert_key (inserted_key m w t kp kn) (keys c))) m)).
Proof.
  intros Hc Hti Hs Hp Hn Ht Hw.
  pose proof (key_at_range _ _ _ Hp) as Rp.
  pose proof (key_at_range _ _ _ Hn) as Rn.
  unfold addKeyToAnimCurve, seq, setObject. rewrite Hc, Hti.
  unfold lift, get, write_curve, record_change, ret.
  assert (Hplan :
    exists k, key_at c (findClosest c t) = Return k
              /\ ktime k <> t
              /\ (if flt (ktime k) t
                     && (findClosest c t <? numKeys c - 1)%Z
                  then Some (findClosest c t, (findClosest c t + 1)%Z)
                  else if fgt (ktime k) t && (findClosest c t >? 0)%Z
                  then Some ((findClosest c t - 1)%Z, findClosest c t)
                  else None) = Some (i, (i + 1)%Z)).
  { destruct (closest_between c t i kp kn Hs Hp Hn Ht) as [-> | ->].
    - exists kp. split; [assumption | ]. split; [lra | ].
      rewrite flt_true by lra.
      replace (i <? numKeys c - 1)%Z with true
        by (symmetry; apply Z.ltb_lt; lia).
      reflexivity.
    - exists kn. split; [assumption | ]. split; [lra | ].
      rewrite flt_false by lra. rewrite fgt_true by lra.
      replace (i + 1 >? 0)%Z with true
        by (symmetry; apply Z.gtb_lt; lia).
      cbn [andb]. replace (i + 1 - 1)%Z with i by lia. reflexivity. }
  destruct Hplan as (k & Hk & Hne & Hbr).
  rewrite (time_key _ _ _ Hk).
  destruct (Req_EM_T (ktime k) t) as [E | _]; [contradiction | ].
  rewrite Hbr.
  rewrite (outTangentType_key _ _ _ Hp), (inTangentType_key _ _ _ Hn).
  rewrite (value_key _ _ _ Hp), (value_key _ _ _ Hn).
  unfold weight_of. rewrite Hw. cbn [bind].
  unfold addKey, inserted_key, tween_tangents, tween_value. rewrite Hti.
  destruct (TangentType_eq_dec (koutTangentType kp) kTangentFixed);
    [reflexivity | ].
  destruct (TangentType_eq_dec (kinTangentType kn) kTangentFixed);
    reflexivity.
Qed.

(** A key at the current time with a key on each side: its value is
    set to the value of the plan; nothing is recorded. *)
Lemma addKeyToAnimCurve_update (self : tweenMachinePlugin) (m : Maya)
      (h : nat) (c : AnimCurve) (w : R) (i : Z) (kp ki kn : Key) :
  nth_error (curves m) h = Some c ->
  isTimeInput c = true ->
  sorted c ->
  key_at c (i - 1) = Return kp -> key_at c i = Return ki ->
  key_at c (i + 1) = Return kn ->
  weight self = Some w ->
  addKeyToAnimCurve findClosest self (ktime ki) h m
  = (Return Next,
     set_curve h
       (mkAnimCurve true
          (set_nth (Z.to_nat i) (with_value (tween_value w kp kn) ki)
                   (keys c))) m).
Proof.
  intros Hc Hti Hs Hp Hi Hn Hw.
  unfold addKeyToAnimCurve, seq, setObject. rewrite Hc, Hti.
  unfold lift, get, write_curve, ret.
  rewrite (closest_exact c i ki Hs Hi). rewrite (time_key _ _ _ Hi).
  destruct (Req_EM_T (ktime ki) (ktime ki)) as [_ | N];
    [ | exfalso; apply N; reflexivity ].
  rewrite (value_key _ _ _ Hp), (value_key _ _ _ Hn).
  unfold weight_of. rewrite Hw. cbn [bind].
  unfold setValue. rewrite Hi. cbn [bind]. rewrite Hti. reflexivity.
Qed.

(** A key at the current time that is the first of the curve: reading
    the value before it raises, and nothing is written. *)
Lemma addKeyToAnimCurve_first (self : tweenMachinePlugin) (m : Maya)
      (h : nat) (c : AnimCurve) (k0 : Key) :
  nth_error (curves m) h = Some c ->
  isTimeInput c = true ->
  sorted c ->
  key_at c 0 = Return k0 ->
  addKeyToAnimCurve findClosest self (ktime k0) h m
  = (Raise OverflowError, m).
Proof.
  intros Hc Hti Hs H0.
  unfold addKeyToAnimCurve, seq, setObject. rewrite Hc, Hti.
  unfold lift, get, write_curve, ret.
  rewrite (closest_exact c 0 k0 Hs H0). rewrite (time_key _ _ _ H0).
  destruct (Req_EM_T (ktime k0) (ktime k0)) as [_ | N];
    [ | exfalso; apply N; reflexivity ].
  unfold value. rewrite key_at_negative by lia. reflexivity.
Qed.

(** A key at the current time that is the last of the curve, and not
    the first: reading the value after it raises, and nothing is
    written. *)
Lemma addKeyToAnimCurve_last (self : tweenMachinePlugin) (m : Maya)
      (h : nat) (c : AnimCurve) (w : R) (kl : Key) :
  nth_error (curves m) h = Some c ->
  isTimeInput c = true ->
  sorted c ->
  (0 < numKeys c - 1)%Z ->
  key_at c (numKeys c - 1) = Return kl ->
  weight self = Some w ->
  addKeyToAnimCurve findClosest self (ktime kl) h m
  = (Raise RuntimeError, m).
Proof.
  intros Hc Hti Hs Hpos Hl Hw.
  unfold addKeyToAnimCurve, seq, setObject. rewrite Hc, Hti.
  unfold lift, get, write_curve, ret.
  rewrite (closest_exact c _ kl Hs Hl). rewrite (time_key _ _ _ Hl).
  destruct (Req_EM_T (ktime kl) (ktime kl)) as [_ | N];
    [ | exfalso; apply N; reflexivity ].
  assert (Hprev : exists kp, key_at c (numKeys c - 1 - 1) = Return kp).
  { unfold key_at, numKeys in *.
    destruct (Z.ltb_spec (Z.of_nat (List.length (keys c)) - 1 - 1) 0);
      [lia | ].
    destruct (nth_error (keys c)
                (Z.to_nat (Z.of_nat (List.length (keys c)) - 1 - 1)))
      as [kp | ] eqn:E; [eauto | ].
    apply nth_error_None in E. lia. }
  destruct Hprev as [kp Hp]. rewrite (value_key _ _ _ Hp).
  unfold weight_of. rewrite Hw. cbn [bind].
  unfold value. rewrite key_at_beyond by lia. reflexivity.
Qed.

(** No key at the current time, which is before the first key or after
    the last: the error is displayed and the loop is left. *)
Lemma addKeyToAnimCurve_outside (self : tweenMachinePlugin) (m : Maya)
      (h : nat) (c : AnimCurve) (t : R) (k0 kl : Key) :
  nth_error (curves m) h = Some c ->
  isTimeInput c = true ->
  sorted c ->
  key_at c 0 = Return k0 -> key_at c (numKeys c - 1) = Return kl ->
  t < ktime k0 \/ ktime kl < t ->
  addKeyToAnimCurve findClosest self t h m
  = (Return Break, add_displayed no_bracket_msg m).
Proof.
  intros Hc Hti Hs H0 Hl Ht.
  unfold addKeyToAnimCurve, seq, setObject. rewrite Hc, Hti.
  unfold lift, get, displayError, ret.
  destruct Ht as [Ht | Ht].
  - rewrite (closest_before_first c t k0 Hs H0 Ht).
    rewrite (time_key _ _ _ H0).
    destruct (Req_EM_T (ktime k0) t) as [E | _]; [lra | ].
    rewrite flt_false by lra. rewrite fgt_true by lra. reflexivity.
  - rewrite (closest_after_last c t kl Hs Hl Ht).
    rewrite (time_key _ _ _ Hl).
    destruct (Req_EM_T (ktime kl) t) as [E | _]; [lra | ].
    rewrite flt_true by lra. rewrite Z.ltb_irrefl.
    rewrite fgt_false by lra. reflexivity.
Qed.

(** ** The batch *)

Lemma for_curves_app (self : tweenMachinePlugin) (t : R)
      (pre rest : list nat) :
  forall m,
    for_curves findClosest self (pre ++ rest) t m
    = match for_curves findClosest self pre t m with
      | (Return Next, m') => for_curves findClosest self rest t m'
      | stopped => stopped
      end.
Proof.
  induction pre as [ | h pre IH]; intros m.
  - reflexivity.
  - cbn [app for_curves]. unfold seq.
    destruct (addKeyToAnimCurve findClosest self t h m)
      as [[[ | ] | x] m1]; [apply IH | reflexivity | reflexivity].
Qed.

(** The same, with the place of the new key in the curve. *)
Lemma addKeyToAnimCurve_insert_at (self : tweenMachinePlugin) (m : Maya)
      (h : nat) (c : AnimCurve) (t w : R) (i : Z) (kp kn : Key) :
  nth_error (curves m) h = Some c ->
  isTimeInput c = true ->
  sorted c ->
  key_at c i = Return kp -> key_at c (i + 1) = Return kn ->
  ktime kp < t < ktime kn ->
  weight self = Some w ->
  addKeyToAnimCurve findClosest self t h m
  = (Return Next,
     add_change (h, t)
       (set_curve h
          (mkAnimCurve true
             (firstn (Z.to_nat (i + 1)) (keys c)
              ++ inserted_key m w t kp kn
              :: skipn (Z.to_nat (i + 1)) (keys c))) m)).
Proof.
  intros Hc Hti Hs Hp Hn Ht Hw.
  rewrite (addKeyToAnimCurve_insert self m h c t w i kp kn)
    by assumption.
  destruct (key_at_nth _ _ _ Hp) as [Hi0 Hnp].
  destruct (key_at_nth _ _ _ Hn) as [_ Hnn].
  replace (Z.to_nat (i + 1)) with (S (Z.to_nat i)) in * by lia.
  rewrite (insert_key_between _ _ Hs (Z.to_nat i) kp kn Hnp Hnn)
    by (cbn; assumption).
  reflexivity.
Qed.

(** ** The command *)

(** [redoIt] on a selection with animation curves: the weight of the
    command object is divided by 100, and the loop runs on the object
    with that weight. *)
Lemma redoIt_runs (self : tweenMachinePlugin) (m : Maya) (w : R) :
  weight self = Some w ->
  selectionIsEmpty m = false ->
  selectedAnimCurves m <> [] ->
  redoIt findClosest (self, m)
  = match addKeyToAnimCurves findClosest (mkCommand (Some (w / 100)))
            (selectedAnimCurves m) (currentTime m) m with
    | (r, m') => (r, (mkCommand (Some (w / 100)), m'))
    end.
Proof.
  intros Hw Hsel Hne.
  unfold redoIt, seq, get, rescale_weight, weight_of. cbn [fst snd].
  rewrite Hw. unfold truediv.
  destruct (Req_EM_T 100 0) as [E | _]; [lra | ].
  rewrite Hsel. cbn [negb].
  destruct (selectedAnimCurves m) as [ | h hs] eqn:Eh; [contradiction | ].
  replace (Z.of_nat (List.length (h :: hs)) >? 0)%Z with true
    by (symmetry; apply Z.gtb_lt; cbn [List.length]; lia).
  unfold on_host. cbn [fst snd]. reflexivity.
Qed.

(** A command invoked with a weight flag between 0 and 100 runs
    [redoIt] on a new command object that holds the flag. *)
Lemma invoke_weight (w : R) (m : Maya) :
  0 <= w <= 100 ->
  invoke findClosest (Some w) m
  = redoIt findClosest (mkCommand (Some w), m).
Proof.
  intros [H0 H100]. unfold invoke, doIt, argumentParser, seq, get.
  cbn [fst snd weight]. rewrite fle_true by assumption.
  rewrite fge_true by lra. reflexivity.
Qed.

Lemma invoke_runs (w : R) (m : Maya) :
  0 <= w <= 100 ->
  selectionIsEmpty m = false ->
  selectedAnimCurves m <> [] ->
  invoke findClosest (Some w) m
  = match addKeyToAnimCurves findClosest (mkCommand (Some (w / 100)))
            (selectedAnimCurves m) (currentTime m) m with
    | (r, m') => (r, (mkCommand (Some (w / 100)), m'))
    end.
Proof.
  intros Hw Hsel Hne. rewrite invoke_weight by assumption.
  apply redoIt_runs; [reflexivity | assumption | assumption].
Qed.

Lemma addKeyToAnimCurves_one (self : tweenMachinePlugin) (h : nat)
      (t : R) (m m' : Maya) :
  addKeyToAnimCurve findClosest self t h m = (Return Next, m') ->
  addKeyToAnimCurves findClosest self [h] t m = (Return tt, m').
Proof.
  intros H. unfold addKeyToAnimCurves, seq. cbn [for_curves].
  unfold seq. rewrite H. reflexivity.
Qed.

(** A command invoked a second time, on a new command object with the
    same flag, finds the key the first has inserted and sets it to the
    value it already has: the scene stays as the first invocation left
    it. *)
Lemma invoke_again (w : R) (m : Maya) (h : nat) (c : AnimCurve) (i : Z)
      (kp kn : Key) :
  0 <= w <= 100 ->
  selectionIsEmpty m = false ->
  selectedAnimCurves m = [h] ->
  nth_error (curves m) h = Some c ->
  isTimeInput c = true ->
  sorted c ->
  key_at c i = Return kp -> key_at c (i + 1) = Return kn ->
  ktime kp < currentTime m < ktime kn ->
  exists m1,
    invoke findClosest (Some w) m
    = (Return tt, (mkCommand (Some (w / 100)), m1))
    /\ invoke findClosest (Some w) m1
       = (Return tt, (mkCommand (Some (w / 100)), m1)).
Proof.
  intros Hw Hsel Hh Hc Hti Hs Hp Hn Ht.
  destruct (key_at_nth _ _ _ Hp) as [Hi0 Hnp].
  destruct (key_at_nth _ _ _ Hn) as [_ Hnn].
  replace (Z.to_nat (i + 1)) with (S (Z.to_nat i)) in Hnn by lia.
  set (t := currentTime m) in *. set (n := Z.to_nat i) in *.
  set (k := inserted_key m (w / 100) t kp kn).
  set (c1 := mkAnimCurve true
               (firstn (S n) (keys c) ++ k :: skipn (S n) (keys c))).
  set (m1 := add_change (h, t) (set_curve h c1 m)).
  assert (Hlen : (S n < List.length (keys c))%nat)
    by (apply nth_error_Some; rewrite Hnn; discriminate).
  destruct (nth_error_put k (keys c) (S n)) as (Hk & Hlow & Hhigh);
    [lia | ].
  exists m1. split.
  - rewrite invoke_runs by (try assumption; rewrite Hh; discriminate).
    rewrite Hh. erewrite addKeyToAnimCurves_one; [reflexivity | ].
    fold t.
    rewrite (addKeyToAnimCurve_insert_at _ m h c t (w / 100) i kp kn)
      by (assumption || reflexivity).
    replace (Z.to_nat (i + 1)) with (S n) by lia. reflexivity.
  - rewrite invoke_runs by (cbn; try assumption; rewrite Hh; discriminate).
    change (selectedAnimCurves m1) with (selectedAnimCurves m).
    change (currentTime m1) with (ktime k).
    rewrite Hh. erewrite addKeyToAnimCurves_one; [reflexivity | ].
    rewrite (addKeyToAnimCurve_update _ m1 h c1 (w / 100) (i + 1) kp k kn).
    + f_equal.
      replace (with_value (tween_value (w / 100) kp kn) k) with k
        by reflexivity.
      replace (Z.to_nat (i + 1)) with (S n) by lia.
      rewrite (set_nth_same (keys c1) (S n) k) by exact Hk.
      unfold set_curve, m1, add_change. cbn.
      rewrite set_nth_twice. reflexivity.
    + cbn. eapply nth_error_set_nth. eassumption.
    + reflexivity.
    + unfold sorted, c1. cbn [keys].
      rewrite <- (insert_key_between k (keys c) Hs n kp kn Hnp Hnn)
        by (cbn; assumption).
      apply sorted_insert_key; [exact Hs | ].
      intros k' Hin E. destruct (in_key_at _ _ Hin) as [j Hj].
      cbn [ktime k inserted_key] in E.
      destruct (Z_le_gt_dec j i) as [Lj | Gj].
      * destruct (Z.eq_dec j i) as [-> | Nj].
        -- rewrite Hp in Hj. injection Hj as <-. lra.
        -- assert (L : (j < i)%Z) by lia.
           pose proof (sorted_key_at c _ _ _ _ Hs Hj Hp L). lra.
      * destruct (Z.eq_dec j (i + 1)) as [-> | Nj].
        -- rewrite Hn in Hj. injection Hj as <-. lra.
        -- assert (L : (i + 1 < j)%Z) by lia.
           pose proof (sorted_key_at c _ _ _ _ Hs Hn Hj L). lra.
    + replace (i + 1 - 1)%Z with (Z.of_nat n) by lia.
      apply key_at_of_nth. cbn [keys c1].
      rewrite Hlow by lia. exact Hnp.
    + replace (i + 1)%Z with (Z.of_nat (S n)) by lia.
      apply key_at_of_nth. exact Hk.
    + replace (i + 1 + 1)%Z with (Z.of_nat (S (S n))) by lia.
      apply key_at_of_nth. cbn [keys c1].
      rewrite Hhigh by lia. exact Hnn.
    + reflexivity.
Qed.

Lemma sorted_ramp : sorted ramp.
Proof.
  unfold sorted, ramp, linear_key. cbn [keys].
  repeat (constructor; cbn [ktime]); lra.
Qed.

Lemma ramp_insert_at_5 :
  invoke findClosest (Some 50) (ramp_scene 5)
  = (Return tt,
     (mkCommand (Some (50 / 100)),
      add_change (0%nat, 5)
        (set_curve 0
           (mkAnimCurve true
              [linear_key 0 0; linear_key 5 5;
               linear_key 10 10; linear_key 20 20])
           (ramp_scene 5)))).
Proof.
  rewrite invoke_runs by (cbn; try lra; congruence).
  cbn [selectedAnimCurves currentTime ramp_scene].
  erewrite addKeyToAnimCurves_one; [reflexivity | ].
  rewrite (addKeyToAnimCurve_insert _ _ 0%nat ramp 5 (50 / 100) 0
             (linear_key 0 0) (linear_key 10 10));
    [ | reflexivity | reflexivity | apply sorted_ramp | reflexivity
      | reflexivity | cbn; lra | reflexivity ].
  do 4 f_equal.
  rewrite (insert_key_between _ _ sorted_ramp 0
             (linear_key 0 0) (linear_key 10 10));
    [ | reflexivity | reflexivity | cbn; lra ].
  cbn [firstn skipn keys ramp app]. do 2 f_equal.
  unfold inserted_key, linear_key, tween_value. cbn.
  f_equal. lra.
Qed.

Lemma ramp_update_at_10 :
  invoke findClosest (Some 50) (ramp_scene 10)
  = (Return tt,
     (mkCommand (Some (50 / 100)),
      set_curve 0
        (mkAnimCurve true
           [linear_key 0 0; linear_key 10 10; linear_key 20 20])
        (ramp_scene 10))).
Proof.
  rewrite invoke_runs by (cbn; try lra; congruence).
  cbn [selectedAnimCurves currentTime ramp_scene].
  erewrite addKeyToAnimCurves_one; [reflexivity | ].
  change 10 with (ktime (linear_key 10 10)) at 1.
  rewrite (addKeyToAnimCurve_update _ _ 0%nat ramp (50 / 100) 1
             (linear_key 0 0) (linear_key 10 10) (linear_key 20 20));
    [ | reflexivity | reflexivity | apply sorted_ramp | reflexivity
      | reflexivity | reflexivity | reflexivity ].
  do 3 f_equal. change (Z.to_nat 1) with 1%nat.
  cbn [set_nth keys ramp]. do 2 f_equal.
  unfold with_value, linear_key, tween_value. cbn.
  f_equal. lra.
Qed.

(** ** The claims on the command *)

(** C3: the value written for the tween key is
    vPrev * (1 - w/100) + vNext * (w/100) for a weight flag w in
    [0, 100].  The command hands the loop a command object whose weight
    is w / 100; with that weight the loop body inserts, between two
    adjacent keys around the time, a key of that value at the time, and
    sets a key that is at the time, with a key on each side, to that
    value.  With keys at times 0, 10, 20 of values 0, 10, 20 and
    w = 50, time 5 inserts a key of value 5 and time 10 sets the key of
    index 1 to 10. *)
Theorem tween_value_written :
  (forall w m,
      0 <= w <= 100 ->
      selectionIsEmpty m = false ->
      selectedAnimCurves m <> [] ->
      invoke findClosest (Some w) m
      = match addKeyToAnimCurves findClosest
                (mkCommand (Some (w / 100)))
                (selectedAnimCurves m) (currentTime m) m with
        | (r, m') => (r, (mkCommand (Some (w / 100)), m'))
        end)
  /\ (forall w m h c t i kp kn,
        0 <= w <= 100 ->
        nth_error (curves m) h = Some c ->
        isTimeInput c = true ->
        sorted c ->
        key_at c i = Return kp -> key_at c (i + 1) = Return kn ->
        ktime kp < t < ktime kn ->
        exists tin tout,
          addKeyToAnimCurve findClosest (mkCommand (Some (w / 100))) t h m
          = (Return Next,
             add_change (h, t)
               (set_curve h
                  (mkAnimCurve true
                     (firstn (Z.to_nat (i + 1)) (keys c)
                      ++ mkKey t (kvalue kp * (1 - w / 100)
                                  + kvalue kn * (w / 100)) tin tout
                      :: skipn (Z.to_nat (i + 1)) (keys c))) m)))
  /\ (forall w m h c i kp ki kn,
        0 <= w <= 100 ->
        nth_error (curves m) h = Some c ->
        isTimeInput c = true ->
        sorted c ->
        key_at c (i - 1) = Return kp -> key_at c i = Return ki ->
        key_at c (i + 1) = Return kn ->
        addKeyToAnimCurve findClosest (mkCommand (Some (w / 100)))
                          (ktime ki) h m
        = (Return Next,
           set_curve h
             (mkAnimCurve true
                (set_nth (Z.to_nat i)
                   (mkKey (ktime ki)
                          (kvalue kp * (1 - w / 100)
                           + kvalue kn * (w / 100))
                          (kinTangentType ki) (koutTangentType ki))
                   (keys c))) m))
  /\ invoke findClosest (Some 50) (ramp_scene 5)
     = (Return tt,
        (mkCommand (Some (50 / 100)),
         add_change (0%nat, 5)
           (set_curve 0
              (mkAnimCurve true
                 [linear_key 0 0; linear_key 5 5;
                  linear_key 10 10; linear_key 20 20])
              (ramp_scene 5))))
  /\ invoke findClosest (Some 50) (ramp_scene 10)
     = (Return tt,
        (mkCommand (Some (50 / 100)),
         set_curve 0
           (mkAnimCurve true
              [linear_key 0 0; linear_key 10 10; linear_key 20 20])
           (ramp_scene 10))).
Proof.
  split; [ | split; [ | split; [ | split ] ] ].
  - intros w m Hw Hsel Hne. apply invoke_runs; assumption.
  - intros w m h c t i kp kn Hw Hc Hti Hs Hp Hn Ht.
    exists (fst (tween_tangents m kp kn)), (snd (tween_tangents m kp kn)).
    apply (addKeyToAnimCurve_insert_at _ m h c t (w / 100) i kp kn);
      (assumption || reflexivity).
  - intros w m h c i kp ki kn Hw Hc Hti Hs Hp Hi Hn.
    apply (addKeyToAnimCurve_update _ m h c (w / 100) i kp ki kn);
      (assumption || reflexivity).
  - apply ramp_insert_at_5.
  - apply ramp_update_at_10.
Qed.

(** C7: the key inserted between the previous key [kp] and the next key
    [kn] has the out-tangent type of [kp] as its in-tangent type and
    the in-tangent type of [kn] as its out-tangent type, except that
    when one of these two is the fixed kind both are the global
    default in- and out-tangent types of the host. *)
Theorem inserted_key_tangents (self : tweenMachinePlugin) (m : Maya)
        (h : nat) (c : AnimCurve) (t w : R) (i : Z) (kp kn : Key) :
  nth_error (curves m) h = Some c ->
  isTimeInput c = true ->
  sorted c ->
  key_at c i = Return kp -> key_at c (i + 1) = Return kn ->
  ktime kp < t < ktime kn ->
  weight self = Some w ->
  exists knew,
    addKeyToAnimCurve findClosest self t h m
    = (Return Next,
       add_change (h, t)
         (set_curve h
            (mkAnimCurve true
               (firstn (Z.to_nat (i + 1)) (keys c)
                ++ knew :: skipn (Z.to_nat (i + 1)) (keys c))) m))
    /\ ktime knew = t
    /\ (koutTangentType kp <> kTangentFixed ->
        kinTangentType kn <> kTangentFixed ->
        kinTangentType knew = koutTangentType kp
        /\ koutTangentType knew = kinTangentType kn)
    /\ (koutTangentType kp = kTangentFixed
        \/ kinTangentType kn = kTangentFixed ->
        kinTangentType knew = globalInTangentType m
        /\ koutTangentType knew = globalOutTangentType m).
Proof.
  intros Hc Hti Hs Hp Hn Ht Hw.
  exists (inserted_key m w t kp kn). split; [ | split; [ | split ] ].
  - apply addKeyToAnimCurve_insert_at; assumption.
  - reflexivity.
  - intros Np Nn. unfold inserted_key, tween_tangents.
    cbn [kinTangentType koutTangentType].
    destruct (TangentType_eq_dec (koutTangentType kp) kTangentFixed);
      [contradiction | ].
    destruct (TangentType_eq_dec (kinTangentType kn) kTangentFixed);
      [contradiction | ].
    split; reflexivity.
  - intros F. unfold inserted_key, tween_tangents.
    cbn [kinTangentType koutTangentType].
    destruct (TangentType_eq_dec (koutTangentType kp) kTangentFixed);
      [split; reflexivity | ].
    destruct (TangentType_eq_dec (kinTangentType kn) kTangentFixed);
      [split; reflexivity | ].
    destruct F; contradiction.
Qed.

(** C5: a curve with no key at the time, the time being before its
    first key or after its last: the loop displays the error for that
    curve and is left; the curves after it in the batch are not
    processed, the scene stays as the curves before it left it. *)
Theorem outside_key_range_halts_batch (self : tweenMachinePlugin)
        (pre rest : list nat) (h : nat) (t : R) (m m1 : Maya)
        (c : AnimCurve) (k0 kl : Key) :
  for_curves findClosest self pre t m = (Return Next, m1) ->
  nth_error (curves m1) h = Some c ->
  isTimeInput c = true ->
  sorted c ->
  key_at c 0 = Return k0 -> key_at c (numKeys c - 1) = Return kl ->
  t < ktime k0 \/ ktime kl < t ->
  (forall k, In k (keys c) -> ktime k <> t)
  /\ addKeyToAnimCurve findClosest self t h m1
     = (Return Break, add_displayed no_bracket_msg m1)
  /\ addKeyToAnimCurves findClosest self (pre ++ h :: rest) t m
     = (Return tt, add_displayed no_bracket_msg m1).
Proof.
  intros Hpre Hc Hti Hs H0 Hl Ht.
  assert (Hbody : addKeyToAnimCurve findClosest self t h m1
                  = (Return Break, add_displayed no_bracket_msg m1))
    by (apply (addKeyToAnimCurve_outside self m1 h c t k0 kl);
        assumption).
  split; [ | split ].
  - intros k Hin E. destruct (in_key_at _ _ Hin) as [j Hj].
    pose proof (key_at_range _ _ _ Hj) as Rj.
    destruct Ht as [Ht | Ht].
    + destruct (Z.eq_dec j 0) as [-> | Nj].
      * rewrite H0 in Hj. injection Hj as <-. lra.
      * assert (L : (0 < j)%Z) by lia.
        pose proof (sorted_key_at c _ _ _ _ Hs H0 Hj L). lra.
    + destruct (Z.eq_dec j (numKeys c - 1)) as [-> | Nj].
      * rewrite Hl in Hj. injection Hj as <-. lra.
      * assert (L : (j < numKeys c - 1)%Z) by lia.
        pose proof (sorted_key_at c _ _ _ _ Hs Hj Hl L). lra.
  - exact Hbody.
  - unfold addKeyToAnimCurves, seq. rewrite for_curves_app, Hpre.
    cbn [for_curves]. unfold seq. rewrite Hbody. reflexivity.
Qed.

(** C6: a curve with a key at the time, that key being the first or the
    last of the curve: reading the value of the neighbour that does
    not exist raises, no new value is computed and no curve is
    written; the exception leaves the loop. *)
Theorem boundary_key_raises (self : tweenMachinePlugin) (m : Maya)
        (h : nat) (rest : list nat) (c : AnimCurve) (w : R) (i : Z)
        (ki : Key) :
  nth_error (curves m) h = Some c ->
  isTimeInput c = true ->
  sorted c ->
  key_at c i = Return ki ->
  weight self = Some w ->
  i = 0%Z \/ i = (numKeys c - 1)%Z ->
  exists x,
    addKeyToAnimCurve findClosest self (ktime ki) h m = (Raise x, m)
    /\ addKeyToAnimCurves findClosest self (h :: rest) (ktime ki) m
       = (Raise x, m).
Proof.
  intros Hc Hti Hs Hi Hw Hb.
  assert (Hbody : exists x,
             addKeyToAnimCurve findClosest self (ktime ki) h m
             = (Raise x, m)).
  { destruct (Z.eq_dec i 0) as [-> | Ni].
    - exists OverflowError.
      apply (addKeyToAnimCurve_first self m h c ki); assumption.
    - destruct Hb as [-> | ->]; [contradiction | ].
      exists RuntimeError.
      pose proof (key_at_range _ _ _ Hi).
      apply (addKeyToAnimCurve_last self m h c w ki);
        [assumption .. | lia | assumption | assumption ]. }
  destruct Hbody as [x Hx]. exists x. split; [exact Hx | ].
  unfold addKeyToAnimCurves, seq. cbn [for_curves]. unfold seq.
  rewrite Hx. reflexivity.
Qed.

End Host.

(** ** The claims at sample scenes, with the scan as [findClosest] *)

Lemma tween_value_written_witness :
  invoke first_closest (Some 50) (ramp_scene 5)
  = (Return tt,
     (mkCommand (Some (50 / 100)),
      add_change (0%nat, 5)
        (set_curve 0
           (mkAnimCurve true
              [linear_key 0 0; linear_key 5 5;
               linear_key 10 10; linear_key 20 20])
           (ramp_scene 5))))
  /\ exists tin tout,
       addKeyToAnimCurve first_closest (mkCommand (Some (25 / 100))) 15
                         0 (ramp_scene 15)
       = (Return Next,
          add_change (0%nat, 15)
            (set_curve 0
               (mkAnimCurve true
                  (firstn (Z.to_nat (1 + 1)) (keys ramp)
                   ++ mkKey 15 (10 * (1 - 25 / 100) + 20 * (25 / 100))
                            tin tout
                   :: skipn (Z.to_nat (1 + 1)) (keys ramp)))
               (ramp_scene 15))).
Proof.
  pose proof (tween_value_written first_closest first_closest_spec)
    as (_ & Hins & _ & Hex & _).
  split; [exact Hex | ].
  apply (Hins 25 (ramp_scene 15) 0%nat ramp 15 1%Z
              (linear_key 10 10) (linear_key 20 20));
    [lra | reflexivity | reflexivity | apply sorted_ramp | reflexivity
     | reflexivity | cbn; lra ].
Defined.

Lemma sorted_fixed_pair : sorted fixed_pair.
Proof.
  unfold sorted, fixed_pair. cbn [keys].
  repeat (constructor; cbn [ktime]); lra.
Qed.

Lemma inserted_key_tangents_witness :
  exists knew,
    addKeyToAnimCurve first_closest (mkCommand (Some 0.5)) 5 0
                      (fixed_scene 5)
    = (Return Next,
       add_change (0%nat, 5)
         (set_curve 0
            (mkAnimCurve true
               (firstn (Z.to_nat (0 + 1)) (keys fixed_pair)
                ++ knew :: skipn (Z.to_nat (0 + 1)) (keys fixed_pair)))
            (fixed_scene 5)))
    /\ kinTangentType knew = kTangentAuto
    /\ koutTangentType knew = kTangentSmooth.
Proof.
  destruct (inserted_key_tangents first_closest first_closest_spec
              (mkCommand (Some 0.5)) (fixed_scene 5) 0%nat fixed_pair
              5 0.5 0%Z
              (mkKey 0 0 kTangentFixed kTangentFixed)
              (mkKey 10 10 kTangentFixed kTangentFixed))
    as (knew & Hrun & _ & _ & Hfixed);
    [reflexivity | reflexivity | apply sorted_fixed_pair | reflexivity
     | reflexivity | cbn; lra | reflexivity | ].
  exists knew. split; [exact Hrun | ].
  apply Hfixed. left. reflexivity.
Defined.

Lemma sorted_long_ramp : sorted long_ramp.
Proof.
  unfold sorted, long_ramp, linear_key. cbn [keys].
  repeat (constructor; cbn [ktime]); lra.
Qed.

(** At time 25 the first curve of the batch has no key after the time;
    the second, which has keys on both sides of it, is left as it is. *)
Lemma outside_key_range_halts_batch_witness :
  addKeyToAnimCurves first_closest (mkCommand (Some 0.5))
                     [0%nat; 1%nat] 25 (two_curves 25)
  = (Return tt, add_displayed no_bracket_msg (two_curves 25)).
Proof.
  apply (outside_key_range_halts_batch first_closest first_closest_spec
           (mkCommand (Some 0.5)) [] [1%nat] 0%nat 25
           (two_curves 25) (two_curves 25) ramp
           (linear_key 0 0) (linear_key 20 20));
    [reflexivity | reflexivity | reflexivity | apply sorted_ramp
     | reflexivity | reflexivity | right; cbn; lra ].
Defined.

(** ** [redoIt] run again on the same command object *)

Lemma sorted_ramp_with_5 (v : R) : sorted (ramp_with_5 v).
Proof.
  unfold sorted, ramp_with_5, linear_key. cbn [keys].
  repeat (constructor; cbn [ktime]); lra.
Qed.

(** The first run, on weight 50 and the ramp at time 5: the weight of
    the object becomes 50 / 100 and a key of value 5 is inserted. *)
Lemma redoIt_first_run :
  redoIt first_closest (mkCommand (Some 50), ramp_scene 5)
  = (Return tt,
     (mkCommand (Some (50 / 100)),
      add_change (0%nat, 5) (set_curve 0 (ramp_with_5 5) (ramp_scene 5)))).
Proof.
  rewrite <- (invoke_weight first_closest 50 (ramp_scene 5)) by lra.
  apply (ramp_insert_at_5 first_closest first_closest_spec).
Qed.

(** C9 fails on the code: [redoIt] divides the weight of the command
    object by 100 each time it runs.  Run on weight 50 and the ramp at
    time 5, it writes a key of value 5; run again on the same object, it
    sets that key to 0.05, for the weight is now 50 / 100 / 100; and run
    again on the curve as it was at first (the host has undone the
    insertion), it inserts a key of value 0.05 and not 5. *)
Theorem redoIt_rescales_weight_again :
  let m1 :=
    add_change (0%nat, 5) (set_curve 0 (ramp_with_5 5) (ramp_scene 5)) in
  redoIt first_closest (mkCommand (Some 50), ramp_scene 5)
  = (Return tt, (mkCommand (Some (50 / 100)), m1))
  /\ redoIt first_closest (mkCommand (Some (50 / 100)), m1)
     = (Return tt,
        (mkCommand (Some (50 / 100 / 100)),
         set_curve 0 (ramp_with_5 0.05) m1))
  /\ redoIt first_closest (mkCommand (Some (50 / 100)), ramp_scene 5)
     = (Return tt,
        (mkCommand (Some (50 / 100 / 100)),
         add_change (0%nat, 5)
           (set_curve 0 (ramp_with_5 0.05) (ramp_scene 5))))
  /\ ramp_with_5 0.05 <> ramp_with_5 5.
Proof.
  cbv zeta. split; [ | split; [ | split ] ].
  - apply redoIt_first_run.
  - rewrite (redoIt_runs first_closest _ _ (50 / 100))
      by (cbn; congruence).
    cbn [selectedAnimCurves currentTime ramp_scene add_change set_curve].
    erewrite addKeyToAnimCurves_one; [reflexivity | ].
    change 5 with (ktime (linear_key 5 5)) at 3.
    rewrite (addKeyToAnimCurve_update first_closest first_closest_spec
               _ _ 0%nat (ramp_with_5 5) (50 / 100 / 100) 1
               (linear_key 0 0) (linear_key 5 5) (linear_key 10 10));
      [ | reflexivity | reflexivity | apply sorted_ramp_with_5
        | reflexivity | reflexivity | reflexivity | reflexivity ].
    do 2 f_equal. unfold set_curve. f_equal.
    change (Z.to_nat 1) with 1%nat.
    cbn [set_nth keys ramp_with_5 curves ramp_scene].
    do 2 f_equal. unfold ramp_with_5. do 3 f_equal.
    unfold with_value, linear_key, tween_value. cbn.
    f_equal. lra.
  - rewrite (redoIt_runs first_closest _ _ (50 / 100))
      by (cbn; congruence).
    cbn [selectedAnimCurves currentTime ramp_scene].
    erewrite addKeyToAnimCurves_one; [reflexivity | ].
    rewrite (addKeyToAnimCurve_insert_at first_closest first_closest_spec
               _ _ 0%nat ramp 5 (50 / 100 / 100) 0
               (linear_key 0 0) (linear_key 10 10));
      [ | reflexivity | reflexivity | apply sorted_ramp | reflexivity
        | reflexivity | cbn; lra | reflexivity ].
    do 4 f_equal. change (Z.to_nat (0 + 1)) with 1%nat.
    cbn [firstn skipn keys ramp app]. unfold ramp_with_5. do 3 f_equal.
    unfold inserted_key, linear_key, tween_value. cbn.
    f_equal. lra.
  - intros H. unfold ramp_with_5, linear_key in H.
    injection H as H. lra.
Qed.

Lemma boundary_key_raises_witness :
  exists x,
    addKeyToAnimCurve first_closest (mkCommand (Some 0.5))
                      (ktime (linear_key 20 20)) 0 (ramp_scene 20)
    = (Raise x, ramp_scene 20)
    /\ addKeyToAnimCurves first_closest (mkCommand (Some 0.5)) [0%nat]
                          (ktime (linear_key 20 20)) (ramp_scene 20)
       = (Raise x, ramp_scene 20).
Proof.
  apply (boundary_key_raises first_closest first_closest_spec
           (mkCommand (Some 0.5)) (ramp_scene 20) 0%nat [] ramp 0.5 2%Z
           (linear_key 20 20));
    [reflexivity | reflexivity | apply sorted_ramp | reflexivity
     | reflexivity | right; reflexivity ].
Defined.

(** * More on the command *)

Lemma nth_error_set_nth_other {A : Type} (l : list A) :
  forall (n j : nat) (x : A),
    j <> n -> nth_error (set_nth n x l) j = nth_error l j.
Proof.
  induction l as [ | a l IH]; intros n j x Hj.
  - destruct n; reflexivity.
  - destruct n as [ | n'], j as [ | j']; cbn; try reflexivity.
    + contradiction.
    + apply IH. congruence.
Qed.

Lemma length_set_nth {A : Type} (l : list A) :
  forall (n : nat) (x : A), List.length (set_nth n x l) = List.length l.
Proof.
  induction l as [ | a l IH]; intros n x.
  - destruct n; reflexivity.
  - destruct n as [ | n']; cbn; [reflexivity | f_equal; apply IH].
Qed.

Lemma in_insert_key_old (k x : Key) (ks : list Key) :
  In x ks -> In x (insert_key k ks).
Proof.
  induction ks as [ | k0 rest IH]; cbn [insert_key]; [intros [] | ].
  destruct (Rlt_dec (ktime k) (ktime k0)).
  - intros H. right. exact H.
  - intros [<- | H]; [left; reflexivity | right; apply IH; exact H].
Qed.

Lemma keeps_keys_refl (c : AnimCurve) : keeps_keys c c.
Proof.
  split; [reflexivity | ]. intros k Hk. exists k. auto.
Qed.

Lemma keeps_keys_trans (a b c : AnimCurve) :
  keeps_keys a b -> keeps_keys b c -> keeps_keys a c.
Proof.
  intros [Tab Kab] [Tbc Kbc]. split; [congruence | ].
  intros k Hk. destruct (Kab k Hk) as (k1 & H1 & E1 & I1 & O1).
  destruct (Kbc k1 H1) as (k2 & H2 & E2 & I2 & O2).
  exists k2. repeat split; congruence.
Qed.

Lemma keeps_keys_set_value (c : AnimCurve) (i : Z) (k : Key) (v : R) :
  key_at c i = Return k ->
  keeps_keys c (mkAnimCurve (isTimeInput c)
                  (set_nth (Z.to_nat i) (with_value v k) (keys c))).
Proof.
  intros Hk. destruct (key_at_nth _ _ _ Hk) as [_ Hn].
  split; [reflexivity | ]. cbn [keys]. intros k0 H0.
  destruct (In_nth_error _ _ H0) as [a Ha].
  destruct (Nat.eq_dec a (Z.to_nat i)) as [-> | Na].
  - rewrite Hn in Ha. injection Ha as <-. exists (with_value v k).
    split; [ | repeat split; reflexivity ].
    eapply nth_error_In. eapply nth_error_set_nth. eassumption.
  - exists k0. split; [ | repeat split; reflexivity ].
    eapply nth_error_In.
    rewrite nth_error_set_nth_other by exact Na. eassumption.
Qed.

Lemma keeps_keys_addKey (c : AnimCurve) (t v : R) (tin tout : TangentType) :
  keeps_keys c (addKey c t v tin tout).
Proof.
  split; [reflexivity | ]. cbn [keys addKey]. intros k Hk.
  exists k. split; [apply in_insert_key_old; exact Hk | auto].
Qed.




(** ** The selection *)

Lemma selected_curves_direct (mSel : list Selected) :
  forall acc, selected_curves mSel acc = acc ++ flat_map curve_of mSel.
Proof.
  induction mSel as [ | item rest IH]; intros acc.
  - cbn. rewrite app_nil_r. reflexivity.
  - destruct item as [h | a plugs | ]; cbn [selected_curves flat_map curve_of].
    + rewrite IH, <- app_assoc. reflexivity.
    + apply IH.
    + apply IH.
Qed.

Lemma connected_curves_kept (conns : list Connection) :
  forall acc,
    connected_curves conns acc
    = acc ++ map node
                 (filter (fun c => contains "kAnimCurve" (apiTypeStr c))
                         conns).
Proof.
  induction conns as [ | c rest IH]; intros acc.
  - cbn. rewrite app_nil_r. reflexivity.
  - cbn [connected_curves filter].
    destruct (contains "kAnimCurve" (apiTypeStr c)).
    + rewrite IH, <- app_assoc. reflexivity.
    + apply IH.
Qed.

Lemma plug_curves_flat (plugs : list (list Connection)) :
  forall acc,
    plug_curves plugs acc
    = acc ++ curves_behind (SelDagNode true plugs).
Proof.
  induction plugs as [ | conns rest IH]; intros acc.
  - cbn. rewrite app_nil_r. reflexivity.
  - cbn [plug_curves]. rewrite IH, connected_curves_kept, <- app_assoc.
    reflexivity.
Qed.

Lemma dag_curves_behind (mSel : list Selected) :
  forall acc, dag_curves mSel acc = acc ++ flat_map curves_behind mSel.
Proof.
  induction mSel as [ | item rest IH]; intros acc.
  - cbn. rewrite app_nil_r. reflexivity.
  - destruct item as [h | [ | ] plugs | ]; cbn [dag_curves flat_map].
    + apply IH.
    + rewrite IH, plug_curves_flat, <- app_assoc. reflexivity.
    + apply IH.
    + apply IH.
Qed.

Lemma getAnimCurves_curves (mSel : list Selected) :
  (flat_map curve_of mSel <> [] ->
   getAnimCurves mSel [] = flat_map curve_of mSel)
  /\ (flat_map curve_of mSel = [] ->
      getAnimCurves mSel [] = flat_map curves_behind mSel).
Proof.
  unfold getAnimCurves. rewrite selected_curves_direct. cbn [app].
  split.
  - intros Hne. destruct (flat_map curve_of mSel) as [ | h hs];
      [contradiction | ].
    reflexivity.
  - intros ->. cbn. apply dag_curves_behind.
Qed.

Section AnyHost.

Variable findClosest : AnimCurve -> R -> Z.

(** ** Invocations that only display an error *)


(** X10: a command invoked with a weight in [0, 100] on an empty
    selection displays the selection error, and on a selection that has no
    animation curve the animation error; no curve is written and nothing
    is recorded, but the weight of the command object has been divided by
    100 by then. *)
Theorem redoIt_without_curves (w : R) (m : Maya) :
  0 <= w <= 100 ->
  (selectionIsEmpty m = true ->
   invoke findClosest (Some w) m
   = (Return tt,
      (mkCommand (Some (w / 100)), add_displayed no_selection_msg m)))
  /\ (selectionIsEmpty m = false ->
      selectedAnimCurves m = [] ->
      invoke findClosest (Some w) m
      = (Return tt,
         (mkCommand (Some (w / 100)), add_displayed no_animated_msg m))).
Proof.
  intros Hw. rewrite invoke_weight by assumption.
  unfold redoIt, seq, get, rescale_weight, weight_of, truediv.
  cbn [fst snd weight].
  destruct (Req_EM_T 100 0) as [E | _]; [lra | ].
  split.
  - intros ->. reflexivity.
  - intros -> ->. reflexivity.
Qed.

(** ** What the loop leaves alone *)

(** One turn of the loop, whatever [findClosest] answers and however the
    turn ends. *)
Lemma addKeyToAnimCurve_turn (self : tweenMachinePlugin) (t : R) (h : nat)
      (m : Maya) :
  turn t h m (snd (addKeyToAnimCurve findClosest self t h m)).
Proof.
  unfold addKeyToAnimCurve, seq, setObject, lift, get, write_curve,
    record_change, displayError, ret.
  destruct (nth_error (curves m) h) as [c | ] eqn:Ec;
    [ | left; reflexivity ].
  destruct (isTimeInput c); [ | left; reflexivity ].
  destruct (time c (findClosest c t)) as [ct | x];
    [ | left; reflexivity ].
  destruct (Req_EM_T ct t) as [E | N].
  - destruct (value c (findClosest c t - 1)) as [vp | x];
      [ | left; reflexivity ].
    cbn [bind].
    destruct (weight_of self) as [w | x]; [ | left; reflexivity ].
    cbn [bind].
    destruct (value c (findClosest c t + 1)) as [vn | x];
      [ | left; reflexivity ].
    cbn [bind]. unfold setValue.
    destruct (key_at c (findClosest c t)) as [k | x] eqn:Ek;
      [ | left; reflexivity ].
    cbn [bind snd]. right. right. left.
    exists c, (findClosest c t), k, (vp * (1 - w) + vn * w).
    repeat split; assumption || reflexivity.
  - match goal with
    | |- context [match ?b with Some _ => _ | None => _ end] =>
        destruct b as [[prev next] | ]
    end; [ | right; left; reflexivity ].
    destruct (outTangentType c prev) as [tin | x]; [ | left; reflexivity ].
    destruct (inTangentType c next) as [tout | x]; [ | left; reflexivity ].
    destruct (value c prev) as [vp | x]; [ | left; reflexivity ].
    cbn [bind].
    destruct (weight_of self) as [w | x]; [ | left; reflexivity ].
    cbn [bind].
    destruct (value c next) as [vn | x]; [ | left; reflexivity ].
    cbn [bind snd]. right. right. right.
    eexists c, _, _, _. split; [exact Ec | reflexivity].
Qed.

Lemma turn_settings (t : R) (h : nat) (m m' : Maya) :
  turn t h m m' -> same_settings m m'.
Proof.
  intros [-> | [-> | [(c & i & k & v & _ & _ & ->)
                     | (c & v & tin & tout & _ & ->)]]];
    unfold same_settings; cbn; repeat split;
    try reflexivity; apply length_set_nth.
Qed.

Lemma turn_other (t : R) (h j : nat) (m m' : Maya) :
  turn t h m m' -> j <> h ->
  nth_error (curves m') j = nth_error (curves m) j.
Proof.
  intros [-> | [-> | [(c & i & k & v & _ & _ & ->)
                     | (c & v & tin & tout & _ & ->)]]] Hj;
    cbn; try reflexivity; apply nth_error_set_nth_other; exact Hj.
Qed.

Lemma turn_keeps (t : R) (h : nat) (m m' : Maya) :
  turn t h m m' ->
  forall j c, nth_error (curves m) j = Some c ->
              exists c', nth_error (curves m') j = Some c'
                         /\ keeps_keys c c'.
Proof.
  intros [-> | [-> | [(c0 & i & k & v & Hc & Hk & ->)
                     | (c0 & v & tin & tout & Hc & ->)]]] j c Hj.
  - exists c. split; [exact Hj | apply keeps_keys_refl].
  - exists c. split; [exact Hj | apply keeps_keys_refl].
  - cbn [curves set_curve]. destruct (Nat.eq_dec j h) as [-> | Nj].
    + rewrite Hc in Hj. injection Hj as <-. eexists. split.
      * eapply nth_error_set_nth. eassumption.
      * apply keeps_keys_set_value. exact Hk.
    + exists c. rewrite nth_error_set_nth_other by exact Nj.
      split; [exact Hj | apply keeps_keys_refl].
  - cbn [curves set_curve add_change].
    destruct (Nat.eq_dec j h) as [-> | Nj].
    + rewrite Hc in Hj. injection Hj as <-. eexists. split.
      * eapply nth_error_set_nth. eassumption.
      * apply keeps_keys_addKey.
    + exists c. rewrite nth_error_set_nth_other by exact Nj.
      split; [exact Hj | apply keeps_keys_refl].
Qed.

(** A relation between scenes that holds across every turn holds across
    the loop, however the loop ends. *)
Lemma for_curves_relates (P : Maya -> Maya -> Prop)
      (self : tweenMachinePlugin) (t : R) (hs : list nat) :
  (forall m, P m m) ->
  (forall a b c, P a b -> P b c -> P a c) ->
  (forall h m, In h hs -> turn t h m (snd (addKeyToAnimCurve findClosest self t h m)) ->
               P m (snd (addKeyToAnimCurve findClosest self t h m))) ->
  forall m, P m (snd (for_curves findClosest self hs t m)).
Proof.
  intros Hrefl Htrans. induction hs as [ | h rest IH]; intros Hturn m.
  - apply Hrefl.
  - cbn [for_curves]. unfold seq.
    pose proof (Hturn h m (or_introl eq_refl)
                  (addKeyToAnimCurve_turn self t h m)) as H1.
    destruct (addKeyToAnimCurve findClosest self t h m)
      as [[[ | ] | x] m1]; cbn [snd] in *; try exact H1.
    apply (Htrans _ m1); [exact H1 | ].
    apply IH. intros h' m' Hin. apply Hturn. right. exact Hin.
Qed.

Lemma addKeyToAnimCurves_snd (self : tweenMachinePlugin) (hs : list nat)
      (t : R) (m : Maya) :
  snd (addKeyToAnimCurves findClosest self hs t m)
  = snd (for_curves findClosest self hs t m).
Proof.
  unfold addKeyToAnimCurves, seq.
  destruct (for_curves findClosest self hs t m) as [[fl | x] m1];
    reflexivity.
Qed.

Lemma addKeyToAnimCurves_settings (self : tweenMachinePlugin)
      (hs : list nat) (t : R) (m : Maya) :
  same_settings m (snd (addKeyToAnimCurves findClosest self hs t m)).
Proof.
  rewrite addKeyToAnimCurves_snd.
  apply (for_curves_relates same_settings).
  - intros a. unfold same_settings. repeat split; reflexivity.
  - unfold same_settings.
    intros a b c (A1 & A2 & A3 & A4 & A5 & A6) (B1 & B2 & B3 & B4 & B5 & B6).
    repeat split; congruence.
  - intros h a _ Ht. eapply turn_settings. exact Ht.
Qed.

Lemma addKeyToAnimCurves_other (self : tweenMachinePlugin)
      (hs : list nat) (t : R) (m : Maya) (j : nat) :
  ~ In j hs ->
  nth_error (curves (snd (addKeyToAnimCurves findClosest self hs t m))) j
  = nth_error (curves m) j.
Proof.
  intros Hj. rewrite addKeyToAnimCurves_snd.
  apply (for_curves_relates
           (fun a b => nth_error (curves b) j = nth_error (curves a) j)).
  - reflexivity.
  - intros a b c Hab Hbc. congruence.
  - intros h a Hin Ht. eapply turn_other; [exact Ht | ].
    intros ->. contradiction.
Qed.

(** X11: whatever [findClosest] answers and however the loop ends,
    [addKeyToAnimCurves] leaves the current time, the global tangent
    types, the selection and the number of curve nodes as they were, and
    writes to no curve whose handle is not in the array. *)
Theorem addKeyToAnimCurves_frame (self : tweenMachinePlugin)
        (hs : list nat) (t : R) (m : Maya) :
  same_settings m (snd (addKeyToAnimCurves findClosest self hs t m))
  /\ forall j, ~ In j hs ->
               nth_error
                 (curves (snd (addKeyToAnimCurves findClosest self hs t m)))
                 j
               = nth_error (curves m) j.
Proof.
  split.
  - apply addKeyToAnimCurves_settings.
  - intros j Hj. apply addKeyToAnimCurves_other. exact Hj.
Qed.

(** X12: [addKeyToAnimCurves] never removes a key, never moves one in
    time and never changes the tangent types of one: whatever
    [findClosest] answers and however the loop ends, every key of every
    curve is still in that curve afterwards, at its time and with its
    tangent types (its value may have been set). *)
Theorem addKeyToAnimCurves_keeps_keys (self : tweenMachinePlugin)
        (hs : list nat) (t : R) (m : Maya) (j : nat) (c : AnimCurve) :
  nth_error (curves m) j = Some c ->
  exists c',
    nth_error (curves (snd (addKeyToAnimCurves findClosest self hs t m))) j
    = Some c'
    /\ keeps_keys c c'.
Proof.
  rewrite addKeyToAnimCurves_snd. revert j c.
  apply (for_curves_relates
           (fun a b => forall j c, nth_error (curves a) j = Some c ->
                                   exists c', nth_error (curves b) j = Some c'
                                              /\ keeps_keys c c')).
  - intros a j c Hj. exists c. split; [exact Hj | apply keeps_keys_refl].
  - intros a b c Hab Hbc j x Hj.
    destruct (Hab j x Hj) as (y & Hy & Kxy).
    destruct (Hbc j y Hy) as (z & Hz & Kyz).
    exists z. split; [exact Hz | eapply keeps_keys_trans; eassumption].
  - intros h a _ Ht. eapply turn_keeps. exact Ht.
Qed.

(** ** The command on a selection *)

(** What an invocation leaves of the scene: a message displayed, or what
    the loop over the curves of the selection leaves. *)
Lemma invoke_scene (argList : option R) (m : Maya) :
  (exists msg,
      snd (snd (invoke findClosest argList m)) = add_displayed msg m)
  \/ (exists self,
         snd (snd (invoke findClosest argList m))
         = snd (addKeyToAnimCurves findClosest self
                                   (selectedAnimCurves m) (currentTime m) m)).
Proof.
  unfold invoke, doIt, argumentParser, seq, get.
  destruct argList as [w | ]; cbn [fst snd weight commandCreator];
    [ | left; eexists; reflexivity ].
  destruct (fle w 100 && fge w 0); [ | left; eexists; reflexivity ].
  unfold redoIt, seq, get, rescale_weight, weight_of, truediv.
  cbn [fst snd weight].
  destruct (Req_EM_T 100 0) as [E | _]; [lra | ].
  destruct (selectionIsEmpty m); cbn [negb];
    [left; eexists; reflexivity | ].
  destruct (Z.of_nat (List.length (selectedAnimCurves m)) >? 0)%Z;
    [ | left; eexists; reflexivity ].
  right. exists (mkCommand (Some (w / 100))).
  unfold on_host. cbn [fst snd].
  destruct (addKeyToAnimCurves findClosest (mkCommand (Some (w / 100)))
              (selectedAnimCurves m) (currentTime m) m) as [r m'].
  reflexivity.
Qed.

(** X17: on a selection that holds an animation curve the command writes
    to no curve that is not itself selected, also when the curve drives a
    DAG node of the same selection; and on a selection with no animation
    curve and no curve behind the animated plugs of its DAG nodes, a
    command with a weight in [0, 100] displays the animation error and
    writes nothing. *)
Theorem invoke_on_selection (mSel : list Selected) (m : Maya) :
  (forall argList j,
      flat_map curve_of mSel <> [] ->
      ~ In j (flat_map curve_of mSel) ->
      nth_error
        (curves (snd (snd (invoke findClosest argList
                                  (with_selection mSel m))))) j
      = nth_error (curves m) j)
  /\ (forall w,
        0 <= w <= 100 ->
        mSel <> [] ->
        flat_map curve_of mSel = [] ->
        flat_map curves_behind mSel = [] ->
        invoke findClosest (Some w) (with_selection mSel m)
        = (Return tt,
           (mkCommand (Some (w / 100)),
            add_displayed no_animated_msg (with_selection mSel m)))).
Proof.
  split.
  - intros argList j Hne Hj.
    destruct (invoke_scene argList (with_selection mSel m))
      as [(msg & ->) | (self & ->)].
    + reflexivity.
    + rewrite addKeyToAnimCurves_other.
      * reflexivity.
      * cbn [selectedAnimCurves with_selection].
        rewrite (proj1 (getAnimCurves_curves mSel)) by exact Hne.
        exact Hj.
  - intros w Hw Hne Hc Hb. rewrite invoke_weight by assumption.
    unfold redoIt, seq, get, rescale_weight, weight_of, truediv.
    cbn [fst snd weight].
    destruct (Req_EM_T 100 0) as [E | _]; [lra | ].
    cbn [selectionIsEmpty selectedAnimCurves with_selection].
    rewrite (proj2 (getAnimCurves_curves mSel)) by exact Hc.
    rewrite Hb. destruct mSel as [ | item rest]; [contradiction | ].
    reflexivity.
Qed.

End AnyHost.

Lemma addKeyToAnimCurves_frame_witness :
  nth_error
    (curves (snd (addKeyToAnimCurves first_closest (mkCommand (Some 0.5))
                                     [0%nat] 5 (two_curves 5))))
    1
  = nth_error (curves (two_curves 5)) 1.
Proof.
  apply (proj2 (addKeyToAnimCurves_frame first_closest
                  (mkCommand (Some 0.5)) [0%nat] 5 (two_curves 5))).
  intros [H | []]. discriminate.
Defined.

Lemma addKeyToAnimCurves_keeps_keys_witness :
  exists c',
    nth_error
      (curves (snd (addKeyToAnimCurves first_closest (mkCommand (Some 0.5))
                                       [0%nat] 5 (ramp_scene 5))))
      0
    = Some c'
    /\ keeps_keys ramp c'.
Proof.
  apply (addKeyToAnimCurves_keeps_keys first_closest
           (mkCommand (Some 0.5)) [0%nat] 5 (ramp_scene 5) 0%nat ramp).
  reflexivity.
Defined.

(** ** Time order is kept *)

Lemma in_set_nth {A : Type} (l : list A) :
  forall (n : nat) (x y : A), In x (set_nth n y l) -> x = y \/ In x l.
Proof.
  induction l as [ | a l IH]; intros n x y H.
  - destruct n; destruct H.
  - destruct n as [ | n']; cbn in H.
    + destruct H as [<- | H]; [left; reflexivity | right; right; exact H].
    + destruct H as [<- | H]; [right; left; reflexivity | ].
      destruct (IH _ _ _ H) as [-> | Hin];
        [left; reflexivity | right; right; exact Hin].
Qed.

(** A key replaced by one at the same time leaves the curve in time
    order. *)
Lemma sorted_set_nth (ks : list Key) :
  StronglySorted (fun a b => ktime a < ktime b) ks ->
  forall (n : nat) (k k' : Key),
    nth_error ks n = Some k -> ktime k' = ktime k ->
    StronglySorted (fun a b => ktime a < ktime b) (set_nth n k' ks).
Proof.
  induction 1 as [ | k0 rest Hs IH Hall]; intros n k k' Hn Ht.
  - destruct n; discriminate.
  - rewrite Forall_forall in Hall. destruct n as [ | n']; cbn in *.
    + injection Hn as ->. constructor; [exact Hs | ].
      apply Forall_forall. intros x Hx. rewrite Ht. apply Hall. exact Hx.
    + constructor; [eapply IH; eassumption | ].
      apply Forall_forall. intros x Hx.
      destruct (in_set_nth _ _ _ _ Hx) as [-> | Hin].
      * rewrite Ht. apply Hall. eapply nth_error_In. eassumption.
      * apply Hall. exact Hin.
Qed.

Lemma all_sorted_set_curve (h : nat) (c c' : AnimCurve) (m : Maya) :
  all_sorted m -> nth_error (curves m) h = Some c -> sorted c' ->
  all_sorted (set_curve h c' m).
Proof.
  intros Hm Hc Hs j x Hj. cbn [curves set_curve] in Hj.
  destruct (Nat.eq_dec j h) as [-> | Nj].
  - rewrite (nth_error_set_nth _ _ _ _ Hc) in Hj. injection Hj as <-.
    exact Hs.
  - rewrite nth_error_set_nth_other in Hj by exact Nj. eapply Hm.
    eassumption.
Qed.

Section SortedHost.

Variable findClosest : AnimCurve -> R -> Z.
Hypothesis findClosest_closest : closest_spec findClosest.

(** When the closest key is not at the time, no key is. *)
Lemma no_key_at_time (c : AnimCurve) (t ct : R) :
  time c (findClosest c t) = Return ct -> ct <> t ->
  forall k, In k (keys c) -> ktime k <> t.
Proof.
  intros Ht Hne k Hin E.
  assert (Hk : keys c <> []) by (intros E0; rewrite E0 in Hin; destruct Hin).
  destruct (findClosest_closest c t Hk) as (kc & Hkc & Hmin).
  rewrite (time_key _ _ _ Hkc) in Ht. injection Ht as <-.
  destruct (in_key_at _ _ Hin) as [i Hi].
  pose proof (Hmin _ _ Hi) as M. rewrite E in M.
  replace (t - t) with 0 in M by ring. rewrite Rabs_R0 in M.
  pose proof (Rabs_pos (ktime kc - t)) as P.
  assert (Z0 : Rabs (ktime kc - t) = 0) by lra.
  destruct (Req_EM_T (ktime kc - t) 0) as [E0 | N0]; [lra | ].
  apply Rabs_no_R0 in N0. contradiction.
Qed.

Lemma addKeyToAnimCurve_sorted (self : tweenMachinePlugin) (t : R)
      (h : nat) (m : Maya) :
  all_sorted m ->
  all_sorted (snd (addKeyToAnimCurve findClosest self t h m)).
Proof.
  intros Hm.
  unfold addKeyToAnimCurve, seq, setObject, lift, get, write_curve,
    record_change, displayError, ret.
  destruct (nth_error (curves m) h) as [c | ] eqn:Ec; [ | exact Hm ].
  pose proof (Hm h c Ec) as Hs.
  destruct (isTimeInput c); [ | exact Hm ].
  destruct (time c (findClosest c t)) as [ct | x] eqn:Et; [ | exact Hm ].
  destruct (Req_EM_T ct t) as [E | N].
  - destruct (value c (findClosest c t - 1)) as [vp | x]; [ | exact Hm ].
    cbn [bind].
    destruct (weight_of self) as [w | x]; [ | exact Hm ].
    cbn [bind].
    destruct (value c (findClosest c t + 1)) as [vn | x]; [ | exact Hm ].
    cbn [bind]. unfold setValue.
    destruct (key_at c (findClosest c t)) as [k | x] eqn:Ek; [ | exact Hm ].
    cbn [bind snd]. apply (all_sorted_set_curve h c); [exact Hm | exact Ec | ].
    unfold sorted. cbn [keys].
    destruct (key_at_nth _ _ _ Ek) as [_ Hn].
    apply (sorted_set_nth _ Hs _ k); [exact Hn | reflexivity].
  - match goal with
    | |- context [match ?b with Some _ => _ | None => _ end] =>
        destruct b as [[prev next] | ]
    end; [ | exact Hm ].
    destruct (outTangentType c prev) as [tin | x]; [ | exact Hm ].
    destruct (inTangentType c next) as [tout | x]; [ | exact Hm ].
    destruct (value c prev) as [vp | x]; [ | exact Hm ].
    cbn [bind].
    destruct (weight_of self) as [w | x]; [ | exact Hm ].
    cbn [bind].
    destruct (value c next) as [vn | x]; [ | exact Hm ].
    cbn [bind snd].
    match goal with
    | |- all_sorted (add_change _ ?m1) =>
        change (all_sorted m1)
    end.
    apply (all_sorted_set_curve h c); [exact Hm | exact Ec | ].
    unfold sorted, addKey. cbn [keys].
    apply sorted_insert_key; [exact Hs | ].
    intros k' Hin. cbn [ktime]. eapply no_key_at_time; eassumption.
Qed.

(** X13: with every curve of the scene in time order before, every curve
    is in time order after [addKeyToAnimCurves], however the loop ends:
    a key is only added at a time that has none. *)
Theorem addKeyToAnimCurves_keeps_time_order (self : tweenMachinePlugin)
        (hs : list nat) (t : R) (m : Maya) :
  all_sorted m ->
  all_sorted (snd (addKeyToAnimCurves findClosest self hs t m)).
Proof.
  rewrite addKeyToAnimCurves_snd. revert m.
  apply (for_curves_relates findClosest
           (fun a b => all_sorted a -> all_sorted b)).
  - auto.
  - auto.
  - intros h a _ _. apply addKeyToAnimCurve_sorted.
Qed.

(** ** The slider dragged *)

Lemma set_nth_put {A : Type} (x y : A) :
  forall (n : nat) (l : list A),
    (n <= List.length l)%nat ->
    set_nth n y (firstn n l ++ x :: skipn n l)
    = firstn n l ++ y :: skipn n l.
Proof.
  induction n as [ | n IH]; intros l Hn.
  - reflexivity.
  - destruct l as [ | a l]; [cbn in Hn; lia | ].
    cbn [firstn skipn app set_nth]. f_equal. apply IH. cbn in Hn. lia.
Qed.

(** X14: the command invoked at one time with weight w1 and then with
    weight w2, as the slider does while it is dragged, leaves the scene
    exactly as one invocation with w2 does: the first inserts the key, the
    second finds it and sets it to the value for w2, and one change is
    recorded for undo in both cases. *)
Theorem invoke_overwrites (w1 w2 : R) (m : Maya) (h : nat) (c : AnimCurve)
        (i : Z) (kp kn : Key) :
  0 <= w1 <= 100 -> 0 <= w2 <= 100 ->
  selectionIsEmpty m = false ->
  selectedAnimCurves m = [h] ->
  nth_error (curves m) h = Some c ->
  isTimeInput c = true ->
  sorted c ->
  key_at c i = Return kp -> key_at c (i + 1) = Return kn ->
  ktime kp < currentTime m < ktime kn ->
  exists m1 m2,
    invoke findClosest (Some w1) m
    = (Return tt, (mkCommand (Some (w1 / 100)), m1))
    /\ invoke findClosest (Some w2) m1
       = (Return tt, (mkCommand (Some (w2 / 100)), m2))
    /\ invoke findClosest (Some w2) m
       = (Return tt, (mkCommand (Some (w2 / 100)), m2)).
Proof.
  intros Hw1 Hw2 Hsel Hh Hc Hti Hs Hp Hn Ht.
  destruct (key_at_nth _ _ _ Hp) as [Hi0 Hnp].
  destruct (key_at_nth _ _ _ Hn) as [_ Hnn].
  replace (Z.to_nat (i + 1)) with (S (Z.to_nat i)) in Hnn by lia.
  set (t := currentTime m) in *. set (n := Z.to_nat i) in *.
  set (k1 := inserted_key m (w1 / 100) t kp kn).
  set (k2 := inserted_key m (w2 / 100) t kp kn).
  set (c1 := mkAnimCurve true
               (firstn (S n) (keys c) ++ k1 :: skipn (S n) (keys c))).
  set (c2 := mkAnimCurve true
               (firstn (S n) (keys c) ++ k2 :: skipn (S n) (keys c))).
  set (m1 := add_change (h, t) (set_curve h c1 m)).
  set (m2 := add_change (h, t) (set_curve h c2 m)).
  assert (Hlen : (S n < List.length (keys c))%nat)
    by (apply nth_error_Some; rewrite Hnn; discriminate).
  destruct (nth_error_put k1 (keys c) (S n)) as (Hk & Hlow & Hhigh);
    [lia | ].
  assert (Hdirect : forall w,
             0 <= w <= 100 ->
             invoke findClosest (Some w) m
             = (Return tt,
                (mkCommand (Some (w / 100)),
                 add_change (h, t)
                   (set_curve h
                      (mkAnimCurve true
                         (firstn (S n) (keys c)
                          ++ inserted_key m (w / 100) t kp kn
                          :: skipn (S n) (keys c))) m)))).
  { intros w Hw.
    rewrite invoke_runs by (try assumption; rewrite Hh; discriminate).
    rewrite Hh. erewrite addKeyToAnimCurves_one; [reflexivity | ].
    fold t.
    rewrite (addKeyToAnimCurve_insert_at findClosest findClosest_closest
               _ m h c t (w / 100) i kp kn)
      by (assumption || reflexivity).
    replace (Z.to_nat (i + 1)) with (S n) by lia. reflexivity. }
  exists m1, m2. split; [apply Hdirect; assumption | ].
  split; [ | apply Hdirect; assumption ].
  rewrite invoke_runs by (cbn; try assumption; rewrite Hh; discriminate).
  change (selectedAnimCurves m1) with (selectedAnimCurves m).
  change (currentTime m1) with (ktime k1).
  rewrite Hh. erewrite addKeyToAnimCurves_one; [reflexivity | ].
  rewrite (addKeyToAnimCurve_update findClosest findClosest_closest
             _ m1 h c1 (w2 / 100) (i + 1) kp k1 kn).
  - f_equal.
    replace (with_value (tween_value (w2 / 100) kp kn) k1) with k2
      by reflexivity.
    replace (Z.to_nat (i + 1)) with (S n) by lia.
    cbn [keys c1]. rewrite set_nth_put by lia.
    unfold set_curve, m1, m2, add_change. cbn.
    rewrite set_nth_twice. reflexivity.
  - cbn. eapply nth_error_set_nth. eassumption.
  - reflexivity.
  - unfold sorted, c1. cbn [keys].
    rewrite <- (insert_key_between k1 (keys c) Hs n kp kn Hnp Hnn)
      by (cbn; assumption).
    apply sorted_insert_key; [exact Hs | ].
    intros k' Hin E. destruct (in_key_at _ _ Hin) as [j Hj].
    cbn [ktime k1 inserted_key] in E.
    destruct (Z_le_gt_dec j i) as [Lj | Gj].
    + destruct (Z.eq_dec j i) as [-> | Nj].
      * rewrite Hp in Hj. injection Hj as <-. lra.
      * assert (L : (j < i)%Z) by lia.
        pose proof (sorted_key_at c _ _ _ _ Hs Hj Hp L). lra.
    + destruct (Z.eq_dec j (i + 1)) as [-> | Nj].
      * rewrite Hn in Hj. injection Hj as <-. lra.
      * assert (L : (i + 1 < j)%Z) by lia.
        pose proof (sorted_key_at c _ _ _ _ Hs Hn Hj L). lra.
  - replace (i + 1 - 1)%Z with (Z.of_nat n) by lia.
    apply key_at_of_nth. cbn [keys c1].
    rewrite Hlow by lia. exact Hnp.
  - replace (i + 1)%Z with (Z.of_nat (S n)) by lia.
    apply key_at_of_nth. exact Hk.
  - replace (i + 1 + 1)%Z with (Z.of_nat (S (S n))) by lia.
    apply key_at_of_nth. cbn [keys c1].
    rewrite Hhigh by lia. exact Hnn.
  - reflexivity.
Qed.

(** ** The value between its neighbours *)

Lemma tween_value_bounds (f vp vn : R) :
  0 <= f <= 1 ->
  Rmin vp vn <= vp * (1 - f) + vn * f <= Rmax vp vn.
Proof.
  intros Hf. unfold Rmin, Rmax. destruct (Rle_dec vp vn); split; nra.
Qed.

(** X15: for a weight flag w in [0, 100] the key inserted between two
    adjacent keys has a value between the values of the two, equal to the
    value of the previous key at w = 0 and to the value of the next key at
    w = 100. *)
Theorem inserted_value_between (w : R) (m : Maya) (h : nat) (c : AnimCurve)
        (t : R) (i : Z) (kp kn : Key) :
  0 <= w <= 100 ->
  nth_error (curves m) h = Some c ->
  isTimeInput c = true ->
  sorted c ->
  key_at c i = Return kp -> key_at c (i + 1) = Return kn ->
  ktime kp < t < ktime kn ->
  exists knew,
    addKeyToAnimCurve findClosest (mkCommand (Some (w / 100))) t h m
    = (Return Next,
       add_change (h, t)
         (set_curve h
            (mkAnimCurve true
               (firstn (Z.to_nat (i + 1)) (keys c)
                ++ knew :: skipn (Z.to_nat (i + 1)) (keys c))) m))
    /\ Rmin (kvalue kp) (kvalue kn) <= kvalue knew
       <= Rmax (kvalue kp) (kvalue kn)
    /\ (w = 0 -> kvalue knew = kvalue kp)
    /\ (w = 100 -> kvalue knew = kvalue kn).
Proof.
  intros Hw Hc Hti Hs Hp Hn Ht.
  exists (inserted_key m (w / 100) t kp kn).
  split; [ | split; [ | split ] ].
  - apply (addKeyToAnimCurve_insert_at findClosest findClosest_closest);
      (assumption || reflexivity).
  - cbn [kvalue inserted_key]. unfold tween_value.
    apply tween_value_bounds. lra.
  - intros ->. cbn [kvalue inserted_key]. unfold tween_value. lra.
  - intros ->. cbn [kvalue inserted_key]. unfold tween_value. lra.
Qed.

(** ** A curve met twice, and undo *)

(** The keys around the key the command has put between [kp] and [kn],
    and the time order of the curve. *)
Lemma inserted_curve (c : AnimCurve) (k kp kn : Key) (i : Z) :
  sorted c ->
  key_at c i = Return kp -> key_at c (i + 1) = Return kn ->
  ktime kp < ktime k < ktime kn ->
  let c1 := mkAnimCurve true
              (firstn (Z.to_nat (i + 1)) (keys c)
               ++ k :: skipn (Z.to_nat (i + 1)) (keys c)) in
  sorted c1
  /\ key_at c1 i = Return kp
  /\ key_at c1 (i + 1) = Return k
  /\ key_at c1 (i + 1 + 1) = Return kn
  /\ keys c1 = insert_key k (keys c)
  /\ forall k', In k' (keys c) -> ktime k' <> ktime k.
Proof.
  intros Hs Hp Hn Ht. cbv zeta.
  destruct (key_at_nth _ _ _ Hp) as [Hi0 Hnp].
  destruct (key_at_nth _ _ _ Hn) as [_ Hnn].
  replace (Z.to_nat (i + 1)) with (S (Z.to_nat i)) in * by lia.
  set (n := Z.to_nat i) in *.
  assert (Hlen : (S n < List.length (keys c))%nat)
    by (apply nth_error_Some; rewrite Hnn; discriminate).
  destruct (nth_error_put k (keys c) (S n)) as (Hk & Hlow & Hhigh);
    [lia | ].
  assert (Hnone : forall k', In k' (keys c) -> ktime k' <> ktime k).
  { intros k' Hin E. destruct (in_key_at _ _ Hin) as [j Hj].
    destruct (Z_le_gt_dec j i) as [Lj | Gj].
    - destruct (Z.eq_dec j i) as [-> | Nj].
      + rewrite Hp in Hj. injection Hj as <-. lra.
      + assert (L : (j < i)%Z) by lia.
        pose proof (sorted_key_at c _ _ _ _ Hs Hj Hp L). lra.
    - destruct (Z.eq_dec j (i + 1)) as [-> | Nj].
      + rewrite Hn in Hj. injection Hj as <-. lra.
      + assert (L : (i + 1 < j)%Z) by lia.
        pose proof (sorted_key_at c _ _ _ _ Hs Hn Hj L). lra. }
  pose proof (insert_key_between k (keys c) Hs n kp kn Hnp Hnn Ht) as Hins.
  repeat split.
  - unfold sorted. cbn [keys]. rewrite <- Hins.
    apply sorted_insert_key; assumption.
  - replace i with (Z.of_nat n) by lia.
    apply key_at_of_nth. cbn [keys]. rewrite Hlow by lia. exact Hnp.
  - replace (i + 1)%Z with (Z.of_nat (S n)) by lia.
    apply key_at_of_nth. exact Hk.
  - replace (i + 1 + 1)%Z with (Z.of_nat (S (S n))) by lia.
    apply key_at_of_nth. cbn [keys]. rewrite Hhigh by lia. exact Hnn.
  - cbn [keys]. symmetry. exact Hins.
  - exact Hnone.
Qed.

(** The turn of the loop on a curve the loop has just put its key in: the
    key is found and set to the value it has. *)
Lemma addKeyToAnimCurve_settled (self : tweenMachinePlugin) (m : Maya)
      (h : nat) (c : AnimCurve) (t w : R) (i : Z) (kp kn : Key) :
  nth_error (curves m) h = Some c ->
  isTimeInput c = true ->
  sorted c ->
  key_at c i = Return kp -> key_at c (i + 1) = Return kn ->
  ktime kp < t < ktime kn ->
  weight self = Some w ->
  let m1 :=
    add_change (h, t)
      (set_curve h
         (mkAnimCurve true
            (firstn (Z.to_nat (i + 1)) (keys c)
             ++ inserted_key m w t kp kn
             :: skipn (Z.to_nat (i + 1)) (keys c))) m) in
  addKeyToAnimCurve findClosest self t h m1 = (Return Next, m1).
Proof.
  intros Hc Hti Hs Hp Hn Ht Hw. cbv zeta.
  set (k := inserted_key m w t kp kn).
  destruct (inserted_curve c k kp kn i Hs Hp Hn Ht)
    as (Hs1 & Hp1 & Hk1 & Hn1 & _ & _).
  set (c1 := mkAnimCurve true
               (firstn (Z.to_nat (i + 1)) (keys c)
                ++ k :: skipn (Z.to_nat (i + 1)) (keys c))) in *.
  set (m1 := add_change (h, t) (set_curve h c1 m)).
  change (addKeyToAnimCurve findClosest self (ktime k) h m1
          = (Return Next, m1)).
  rewrite (addKeyToAnimCurve_update findClosest findClosest_closest
             self m1 h c1 w (i + 1) kp k kn).
  - f_equal.
    replace (with_value (tween_value w kp kn) k) with k by reflexivity.
    destruct (key_at_nth _ _ _ Hk1) as [_ Hnk].
    rewrite (set_nth_same (keys c1) _ k Hnk).
    unfold set_curve, m1, add_change. cbn.
    rewrite set_nth_twice. reflexivity.
  - cbn. eapply nth_error_set_nth. eassumption.
  - reflexivity.
  - exact Hs1.
  - replace (i + 1 - 1)%Z with i by lia. exact Hp1.
  - exact Hk1.
  - exact Hn1.
  - exact Hw.
Qed.

(** X18: a curve whose handle is in the array twice in a row, as a curve
    connected to two plugs of a selected node is, is tweened once: the
    second turn finds the key the first has inserted and leaves the scene
    as it is, and the loop goes on as if the handle were there once. *)
Theorem handle_met_twice (self : tweenMachinePlugin) (m : Maya)
        (h : nat) (rest : list nat) (c : AnimCurve) (t w : R) (i : Z)
        (kp kn : Key) :
  nth_error (curves m) h = Some c ->
  isTimeInput c = true ->
  sorted c ->
  key_at c i = Return kp -> key_at c (i + 1) = Return kn ->
  ktime kp < t < ktime kn ->
  weight self = Some w ->
  addKeyToAnimCurves findClosest self (h :: h :: rest) t m
  = addKeyToAnimCurves findClosest self (h :: rest) t m.
Proof.
  intros Hc Hti Hs Hp Hn Ht Hw.
  unfold addKeyToAnimCurves, seq. cbn [for_curves]. unfold seq.
  rewrite (addKeyToAnimCurve_insert_at findClosest findClosest_closest
             self m h c t w i kp kn) by assumption.
  rewrite (addKeyToAnimCurve_settled self m h c t w i kp kn)
    by assumption.
  reflexivity.
Qed.

Lemma remove_inserted_key (k : Key) (ks : list Key) :
  (forall k', In k' ks -> ktime k' <> ktime k) ->
  remove_key (ktime k) (insert_key k ks) = ks.
Proof.
  induction ks as [ | k0 rest IH]; intros Hne; cbn [insert_key].
  - cbn. destruct (Req_EM_T (ktime k) (ktime k)) as [_ | N];
      [reflexivity | exfalso; apply N; reflexivity].
  - destruct (Rlt_dec (ktime k) (ktime k0)) as [L | N].
    + cbn [remove_key].
      destruct (Req_EM_T (ktime k) (ktime k)) as [_ | N'];
        [reflexivity | exfalso; apply N'; reflexivity].
    + cbn [remove_key].
      destruct (Req_EM_T (ktime k0) (ktime k)) as [E | _].
      * exfalso. apply (Hne k0); [left; reflexivity | exact E].
      * f_equal. apply IH. intros k' Hin. apply Hne. right. exact Hin.
Qed.

Lemma set_curve_back (h : nat) (c c1 : AnimCurve) (m : Maya) :
  nth_error (curves m) h = Some c ->
  curves (set_curve h c (add_change (h, currentTime m) (set_curve h c1 m)))
  = curves m.
Proof.
  intros Hc. cbn. rewrite set_nth_twice. apply set_nth_same. exact Hc.
Qed.

(** X19: undo after an insertion gives the curves back: a command that
    has inserted a key has recorded one change, and [undoIt], with
    nothing else in the cache, removes that key and leaves every curve as
    it was before the command. *)
Theorem undoIt_after_insert (w : R) (m : Maya) (h : nat) (c : AnimCurve)
        (i : Z) (kp kn : Key) :
  0 <= w <= 100 ->
  mAnimCurveChangeCache m = [] ->
  selectionIsEmpty m = false ->
  selectedAnimCurves m = [h] ->
  nth_error (curves m) h = Some c ->
  isTimeInput c = true ->
  sorted c ->
  key_at c i = Return kp -> key_at c (i + 1) = Return kn ->
  ktime kp < currentTime m < ktime kn ->
  exists self m1 m2,
    invoke findClosest (Some w) m = (Return tt, (self, m1))
    /\ mAnimCurveChangeCache m1 = [(h, currentTime m)]
    /\ curves m1 <> curves m
    /\ undoIt (self, m1) = (Return tt, (self, m2))
    /\ curves m2 = curves m.
Proof.
  intros Hw Hcache Hsel Hh Hc Hti Hs Hp Hn Ht.
  set (t := currentTime m) in *.
  set (k := inserted_key m (w / 100) t kp kn).
  destruct (inserted_curve c k kp kn i Hs Hp Hn Ht)
    as (_ & _ & Hk1 & _ & Hins & Hnone).
  set (c1 := mkAnimCurve true
               (firstn (Z.to_nat (i + 1)) (keys c)
                ++ k :: skipn (Z.to_nat (i + 1)) (keys c))) in *.
  set (m1 := add_change (h, t) (set_curve h c1 m)).
  assert (Hc1 : nth_error (curves m1) h = Some c1)
    by (cbn; eapply nth_error_set_nth; eassumption).
  exists (mkCommand (Some (w / 100))), m1. eexists.
  split; [ | split; [ | split; [ | split ] ] ].
  - rewrite (invoke_runs findClosest)
      by (try assumption; rewrite Hh; discriminate).
    rewrite Hh. erewrite addKeyToAnimCurves_one; [reflexivity | ].
    apply (addKeyToAnimCurve_insert_at findClosest findClosest_closest);
      (assumption || reflexivity).
  - cbn. rewrite Hcache. reflexivity.
  - intros E. rewrite <- E in Hc. rewrite Hc1 in Hc. injection Hc as E1.
    assert (Hin : In k (keys c)).
    { rewrite <- E1. destruct (key_at_nth _ _ _ Hk1) as [_ Hnk].
      eapply nth_error_In. exact Hnk. }
    exact (Hnone k Hin eq_refl).
  - reflexivity.
  - cbn [snd fst]. replace (mAnimCurveChangeCache m1) with [(h, t)]
      by (cbn; rewrite Hcache; reflexivity).
    cbn [fold_right]. unfold undo_change. cbn [fst snd]. rewrite Hc1.
    rewrite Hins. change t with (ktime k) at 1.
    rewrite (remove_inserted_key k (keys c) Hnone).
    replace (mkAnimCurve (isTimeInput c1) (keys c)) with c
      by (destruct c as [ti ks]; cbn in *; rewrite Hti; reflexivity).
    apply set_curve_back. exact Hc.
Qed.

(** X20: setting the value of a key that is at the time is not recorded:
    a command that finds a key at the current time, with a key on each
    side, sets its value and leaves the cache as it was, and [undoIt],
    with nothing in the cache, leaves the new value in the curve. *)
Theorem update_is_not_recorded (w : R) (m : Maya) (h : nat) (c : AnimCurve)
        (i : Z) (kp ki kn : Key) :
  0 <= w <= 100 ->
  mAnimCurveChangeCache m = [] ->
  selectionIsEmpty m = false ->
  selectedAnimCurves m = [h] ->
  nth_error (curves m) h = Some c ->
  isTimeInput c = true ->
  sorted c ->
  key_at c (i - 1) = Return kp -> key_at c i = Return ki ->
  key_at c (i + 1) = Return kn ->
  currentTime m = ktime ki ->
  let v := kvalue kp * (1 - w / 100) + kvalue kn * (w / 100) in
  let m1 :=
    set_curve h
      (mkAnimCurve true
         (set_nth (Z.to_nat i) (with_value v ki) (keys c))) m in
  invoke findClosest (Some w) m
  = (Return tt, (mkCommand (Some (w / 100)), m1))
  /\ mAnimCurveChangeCache m1 = []
  /\ undoIt (mkCommand (Some (w / 100)), m1)
     = (Return tt, (mkCommand (Some (w / 100)), m1)).
Proof.
  intros Hw Hcache Hsel Hh Hc Hti Hs Hp Hi Hn Ht. cbv zeta.
  split; [ | split ].
  - rewrite (invoke_runs findClosest)
      by (try assumption; rewrite Hh; discriminate).
    rewrite Hh, Ht. erewrite addKeyToAnimCurves_one; [reflexivity | ].
    apply (addKeyToAnimCurve_update findClosest findClosest_closest
             _ m h c (w / 100) i kp ki kn);
      (assumption || reflexivity).
  - cbn. exact Hcache.
  - unfold undoIt. cbn [fst snd mAnimCurveChangeCache set_curve].
    rewrite Hcache. reflexivity.
Qed.

End SortedHost.

Lemma all_sorted_two_curves (t : R) : all_sorted (two_curves t).
Proof.
  intros j c Hj. cbn [curves two_curves] in Hj.
  destruct j as [ | [ | j]]; cbn in Hj.
  - injection Hj as <-. apply sorted_ramp.
  - injection Hj as <-. apply sorted_long_ramp.
  - destruct j; discriminate.
Qed.

Lemma addKeyToAnimCurves_keeps_time_order_witness :
  all_sorted
    (snd (addKeyToAnimCurves first_closest (mkCommand (Some 0.5))
                             [0%nat; 1%nat] 5 (two_curves 5))).
Proof.
  apply (addKeyToAnimCurves_keeps_time_order first_closest
           first_closest_spec).
  apply all_sorted_two_curves.
Defined.

Lemma invoke_overwrites_witness :
  exists m1 m2,
    invoke first_closest (Some 20) (ramp_scene 5)
    = (Return tt, (mkCommand (Some (20 / 100)), m1))
    /\ invoke first_closest (Some 80) m1
       = (Return tt, (mkCommand (Some (80 / 100)), m2))
    /\ invoke first_closest (Some 80) (ramp_scene 5)
       = (Return tt, (mkCommand (Some (80 / 100)), m2)).
Proof.
  apply (invoke_overwrites first_closest first_closest_spec 20 80
           (ramp_scene 5) 0%nat ramp 0%Z
           (linear_key 0 0) (linear_key 10 10));
    [lra | lra | reflexivity | reflexivity | reflexivity | reflexivity
     | apply sorted_ramp | reflexivity | reflexivity | cbn; lra ].
Defined.

Lemma inserted_value_between_witness :
  exists knew,
    addKeyToAnimCurve first_closest (mkCommand (Some (30 / 100))) 5 0
                      (ramp_scene 5)
    = (Return Next,
       add_change (0%nat, 5)
         (set_curve 0
            (mkAnimCurve true
               (firstn (Z.to_nat (0 + 1)) (keys ramp)
                ++ knew :: skipn (Z.to_nat (0 + 1)) (keys ramp)))
            (ramp_scene 5)))
    /\ Rmin 0 10 <= kvalue knew <= Rmax 0 10.
Proof.
  destruct (inserted_value_between first_closest first_closest_spec 30
              (ramp_scene 5) 0%nat ramp 5 0%Z
              (linear_key 0 0) (linear_key 10 10))
    as (knew & Hrun & Hb & _);
    [lra | reflexivity | reflexivity | apply sorted_ramp | reflexivity
     | reflexivity | cbn; lra | ].
  exists knew. split; [exact Hrun | exact Hb].
Defined.

(** X16: [getAnimCurves] on a new array gives the selected animation
    curves, in the order of the selection, when there is one at least, and
    the DAG nodes of the selection are then not looked at; when there is
    none it gives, node by node and plug by plug, one entry per connection
    of an animated plug to a node whose type string contains kAnimCurve,
    so that a curve connected twice is listed twice; nodes that are not
    animated and other nodes give nothing. *)
Theorem getAnimCurves_selection (mSel : list Selected) :
  (flat_map curve_of mSel <> [] ->
   getAnimCurves mSel [] = flat_map curve_of mSel)
  /\ (flat_map curve_of mSel = [] ->
      getAnimCurves mSel [] = flat_map curves_behind mSel).
Proof.
  unfold getAnimCurves. rewrite selected_curves_direct. cbn [app].
  split.
  - intros Hne. destruct (flat_map curve_of mSel) as [ | h hs];
      [contradiction | ].
    reflexivity.
  - intros ->. cbn. apply dag_curves_behind.
Qed.

Lemma getAnimCurves_selection_witness :
  getAnimCurves
    [SelDagNode true
       [[mkConnection "kAnimCurveTimeToDistance" 3;
         mkConnection "kTransform" 9];
        [mkConnection "kAnimCurveTimeToDistance" 3]];
     SelAnimCurve 1; SelOther; SelAnimCurve 0] []
  = [1%nat; 0%nat]
  /\ getAnimCurves
       [SelDagNode true
          [[mkConnection "kAnimCurveTimeToDistance" 3;
            mkConnection "kTransform" 9];
           [mkConnection "kAnimCurveTimeToDistance" 3]];
        SelDagNode false [[mkConnection "kAnimCurveTimeToAngular" 4]];
        SelOther] []
     = [3%nat; 3%nat].
Proof.
  split.
  - rewrite (proj1 (getAnimCurves_selection _)) by discriminate.
    reflexivity.
  - rewrite (proj2 (getAnimCurves_selection _)) by reflexivity.
    reflexivity.
Defined.

(** The ramp is selected; the long ramp, not selected, drives a DAG node
    that is. *)
Lemma invoke_on_selection_witness :
  nth_error
    (curves
       (snd (snd (invoke first_closest (Some 50)
                    (with_selection
                       [SelAnimCurve 0;
                        SelDagNode true
                          [[mkConnection "kAnimCurveTimeToDistance" 1]]]
                       (two_curves 5))))))
    1
  = Some long_ramp.
Proof.
  apply (proj1 (invoke_on_selection first_closest
                  [SelAnimCurve 0;
                   SelDagNode true
                     [[mkConnection "kAnimCurveTimeToDistance" 1]]]
                  (two_curves 5)) (Some 50) 1%nat).
  - discriminate.
  - intros [H | []]. discriminate.
Defined.

Lemma handle_met_twice_witness :
  addKeyToAnimCurves first_closest (mkCommand (Some 0.5))
                     [0%nat; 0%nat] 5 (ramp_scene 5)
  = addKeyToAnimCurves first_closest (mkCommand (Some 0.5))
                       [0%nat] 5 (ramp_scene 5).
Proof.
  apply (handle_met_twice first_closest first_closest_spec
           (mkCommand (Some 0.5)) (ramp_scene 5) 0%nat [] ramp 5 0.5 0%Z
           (linear_key 0 0) (linear_key 10 10));
    [reflexivity | reflexivity | apply sorted_ramp | reflexivity
     | reflexivity | cbn; lra | reflexivity ].
Defined.

Lemma undoIt_after_insert_witness :
  exists self m1 m2,
    invoke first_closest (Some 50) (ramp_scene 5) = (Return tt, (self, m1))
    /\ mAnimCurveChangeCache m1 = [(0%nat, 5)]
    /\ curves m1 <> [ramp]
    /\ undoIt (self, m1) = (Return tt, (self, m2))
    /\ curves m2 = [ramp].
Proof.
  apply (undoIt_after_insert first_closest first_closest_spec 50
           (ramp_scene 5) 0%nat ramp 0%Z
           (linear_key 0 0) (linear_key 10 10));
    [lra | reflexivity | reflexivity | reflexivity | reflexivity
     | reflexivity | apply sorted_ramp | reflexivity | reflexivity
     | cbn; lra ].
Defined.

Lemma update_is_not_recorded_witness :
  mAnimCurveChangeCache
    (set_curve 0
       (mkAnimCurve true
          (set_nth (Z.to_nat 1)
             (with_value (0 * (1 - 30 / 100) + 20 * (30 / 100))
                         (linear_key 10 10))
             (keys ramp)))
       (ramp_scene 10))
  = [].
Proof.
  apply (update_is_not_recorded first_closest first_closest_spec 30
           (ramp_scene 10) 0%nat ramp 1%Z
           (linear_key 0 0) (linear_key 10 10) (linear_key 20 20));
    [lra | reflexivity | reflexivity | reflexivity | reflexivity
     | reflexivity | apply sorted_ramp | reflexivity | reflexivity
     | reflexivity | reflexivity ].
Defined.


Lemma redoIt_without_curves_witness :
  invoke first_closest (Some 50)
         (mkMaya 5 kTangentAuto kTangentAuto [ramp] true [] [] [])
  = (Return tt,
     (mkCommand (Some (50 / 100)),
      add_displayed no_selection_msg
        (mkMaya 5 kTangentAuto kTangentAuto [ramp] true [] [] []))).
Proof.
  apply (proj1 (redoIt_without_curves first_closest 50
                  (mkMaya 5 kTangentAuto kTangentAuto [ramp] true [] [] [])
                  ltac:(lra))).
  reflexivity.
Defined.

End TweenProofs.

(** * Properties of the slider window *)

Module TweenUIProofs.

Import TweenUI.

Lemma bound_range (v : Z) : (0 <= bound v <= 100)%Z.
Proof. unfold bound. lia. Qed.

Lemma bound_weight (v : Z) : 0 <= IZR (bound v) <= 100.
Proof.
  pose proof (bound_range v) as [H0 H100].
  split; [apply (IZR_le 0) | apply (IZR_le _ 100)]; assumption.
Qed.

Section AnyHost.

Variable findClosest : Tween.AnimCurve -> R -> Z.

Lemma tweenMachine_window (weightVal : Z)
      (s : TweenMainWindow * Tween.Maya) :
  fst (snd (tweenMachine findClosest weightVal s)) = fst s.
Proof.
  unfold tweenMachine.
  destruct (Tween.invoke findClosest (Some (IZR weightVal)) (snd s))
    as [r [cmd maya']].
  reflexivity.
Qed.

Lemma slot_consistent (g : gesture) (s : TweenMainWindow * Tween.Maya) :
  consistent (fst s) -> consistent (fst (snd (slot findClosest g s))).
Proof.
  intros [Hf Hr]. destruct g as [ | | v]; cbn [slot].
  - split; [reflexivity | exact Hr].
  - split; [reflexivity | exact Hr].
  - destruct (Z.eqb_spec (bound v) (tweenSlider (fst s))) as [E | N].
    + split; assumption.
    + unfold valueChanged, seq, get, put, ret. cbn [fst snd].
      cbn [sliderPressedBool sliderReleasedBool tweenSlider].
      destruct (sliderPressedBool (fst s) && negb (sliderReleasedBool (fst s))).
      * rewrite tweenMachine_window. cbn [fst].
        split; [exact Hf | apply bound_range].
      * split; [exact Hf | apply bound_range].
Qed.

(** X21: from the window as [__init__] leaves it, whatever the user does
    to the slider and whatever the commands do, the two flags stay each
    the negation of the other, so that the test of [valueChanged] is the
    test of [sliderPressedBool] alone, and the value of the slider stays
    between 0 and 100. *)
Theorem session_consistent (gs : list gesture) (maya : Tween.Maya) :
  consistent (fst (session findClosest gs (init, maya))).
Proof.
  assert (Hgen : forall s, consistent (fst s) ->
                           consistent (fst (session findClosest gs s))).
  { induction gs as [ | g rest IH]; intros s Hs.
    - exact Hs.
    - cbn [session]. apply IH. apply slot_consistent. exact Hs. }
  apply Hgen. split; [reflexivity | cbn; lia].
Qed.

(** X22: a move of the slider to a new value while the slider is not
    pressed changes the value of the slider and nothing else, neither the
    label nor the scene; while it is pressed it shows the value and runs
    the command with the value as its weight, and the weight, being
    between 0 and 100, passes the check of [doIt]: the scene is left as
    [redoIt] leaves it on a command object holding that weight. *)
Theorem move_runs_command (self : TweenMainWindow) (maya : Tween.Maya)
        (v : Z) :
  bound v <> tweenSlider self ->
  (sliderPressedBool self = false ->
   slot findClosest (Move v) (self, maya)
   = (Return tt,
      (mkWindow false (sliderReleasedBool self) (bound v) (pLabel2 self),
       maya)))
  /\ (sliderPressedBool self = true ->
      sliderReleasedBool self = false ->
      snd (slot findClosest (Move v) (self, maya))
      = (mkWindow true false (bound v) (str (bound v)),
         snd (snd (Tween.redoIt findClosest
                     (Tween.mkCommand (Some (IZR (bound v))), maya))))).
Proof.
  intros Hnew. cbn [slot fst snd].
  destruct (Z.eqb_spec (bound v) (tweenSlider self)) as [E | _];
    [contradiction | ].
  unfold valueChanged, seq, get, put, ret. cbn [fst snd].
  cbn [sliderPressedBool sliderReleasedBool tweenSlider].
  split.
  - intros ->. reflexivity.
  - intros -> ->. cbn [andb negb]. unfold tweenMachine. cbn [fst snd].
    rewrite (TweenProofs.invoke_weight findClosest)
      by apply bound_weight.
    destruct (Tween.redoIt findClosest
                (Tween.mkCommand (Some (IZR (bound v))), maya))
      as [r [cmd maya']].
    reflexivity.
Qed.

End AnyHost.

Lemma session_consistent_witness :
  consistent
    (fst (session Tween.first_closest
                  [Press; Move 20; Move 250; Release; Move 7]
                  (init, Tween.ramp_scene 5))).
Proof.
  apply (session_consistent Tween.first_closest).
Defined.

Lemma move_runs_command_witness :
  slot Tween.first_closest (Move 20) (init, Tween.ramp_scene 5)
  = (Return tt, (mkWindow false true (bound 20) "50", Tween.ramp_scene 5)).
Proof.
  apply (proj1 (move_runs_command Tween.first_closest init
                  (Tween.ramp_scene 5) 20 ltac:(discriminate))).
  reflexivity.
Defined.

End TweenUIProofs.
